(** * InboxOracle: the rule engine of [process_rules.py]

    A shallow embedding of [RuleProcessor] (condition evaluator, rule
    matcher, action applicator and the [process_emails] pass) together
    with the collaborators it talks to: the Gmail service, the local
    SQLite table of [Email] rows and the logger.

    Python values are embedded as follows.
    - [str] is [string]; [str.lower] is the ASCII lowering (the texts
      handled here are ASCII; other code points are left untouched).
    - [datetime] is a record of its calendar fields and an optional UTC
      offset in seconds ([None] is a naive datetime).
    - JSON scalars and the values read from an [Email] row are [pyval].
    - an exception is a value of [exn]; code that may raise returns a
      [result]. *)

From Stdlib Require Import ZArith String Ascii DecimalString Lia.
From stdpp Require Import gmap strings list sorting.

Local Open Scope string_scope.
Local Open Scope Z_scope.

(** ** Python strings *)

Module PyStr.

(** [c.lower()] on one ASCII character. *)
Definition lower_ascii (c : ascii) : ascii :=
  let n := nat_of_ascii c in
  if ((65 <=? n)%nat && (n <=? 90)%nat)%bool then ascii_of_nat (n + 32) else c.

(** [s.lower()] *)
Fixpoint lower (s : string) : string :=
  match s with
  | EmptyString => EmptyString
  | String c t => String (lower_ascii c) (lower t)
  end.

(** [needle in hay] on strings: [needle] occurs as a contiguous slice. *)
Fixpoint contains (needle hay : string) : bool :=
  String.prefix needle hay ||
  match hay with
  | EmptyString => false
  | String _ t => contains needle t
  end.

(** [str(n)] for an [int]. *)
Definition of_int (z : Z) : string := NilZero.string_of_int (Z.to_int z).

(** [s.rjust(width, '0')]-style padding of a non-negative number, as
    the [%02d], [%04d] and [%06d] conversions produce it. *)
Definition zero_pad (width : nat) (z : Z) : string :=
  let s := of_int z in
  string_of_list_ascii (repeat "0"%char (width - String.length s)) ++ s.

End PyStr.

(** ** Exceptions and results *)

Inductive exn : Type :=
| ParserError                (* dateutil.parser.ParserError, a ValueError *)
| TypeError
| KeyError (key : string)
| AttributeError
| HttpError.                 (* googleapiclient.errors.HttpError *)

Inductive result (A : Type) : Type :=
| Ok (a : A)
| Raise (e : exn).
Arguments Ok {A} a.
Arguments Raise {A} e.

Definition rbind {A B} (r : result A) (k : A -> result B) : result B :=
  match r with
  | Ok a => k a
  | Raise e => Raise e
  end.

(** ** [datetime.datetime] *)

Record datetime : Type := mk_datetime {
  year : Z; month : Z; day : Z;
  hour : Z; minute : Z; second : Z; microsecond : Z;
  tzinfo : option Z              (* utcoffset() in seconds, None when naive *)
}.

Module DT.

Definition is_leap (y : Z) : bool :=
  (y mod 4 =? 0) && (negb (y mod 100 =? 0) || (y mod 400 =? 0)).

Definition days_before_year (y : Z) : Z :=
  let p := y - 1 in p * 365 + p / 4 - p / 100 + p / 400.

Definition days_in_month (y m : Z) : Z :=
  if m =? 2 then (if is_leap y then 29 else 28)
  else if (m =? 4) || (m =? 6) || (m =? 9) || (m =? 11) then 30
  else 31.

Definition days_before_month (y m : Z) : Z :=
  nth (Z.to_nat m) [0; 0; 31; 59; 90; 120; 151; 181; 212; 243; 273; 304; 334] 0
  + (if (2 <? m) && is_leap y then 1 else 0).

(** [toordinal()] *)
Definition toordinal (d : datetime) : Z :=
  days_before_year (year d) + days_before_month (year d) (month d) + day d.

(** Microseconds of the wall-clock reading since ordinal day 0. *)
Definition wall_us (d : datetime) : Z :=
  ((toordinal d * 86400 + (hour d * 3600 + minute d * 60 + second d))
   * 1000000) + microsecond d.

(** The instant an aware datetime denotes: its wall clock minus its
    UTC offset. *)
Definition utc_us (d : datetime) (off : Z) : Z := wall_us d - off * 1000000.

(** [d.replace(tzinfo=tz)]: the fields are kept, only the zone changes. *)
Definition replace_tzinfo (d : datetime) (tz : option Z) : datetime :=
  mk_datetime (year d) (month d) (day d) (hour d) (minute d) (second d)
              (microsecond d) tz.

(** [datetime._cmp]: the sign of [self - other].  Two naive values, or
    two aware values, are ordered by what they denote (for datetimes
    whose fields are in range this is also the order of their field
    tuples, which CPython compares when the offsets agree); a naive and
    an aware value are incomparable ([None] here: [__eq__] answers
    False, the ordering operators raise TypeError). *)
Definition cmp (a b : datetime) : option comparison :=
  match tzinfo a, tzinfo b with
  | None, None => Some (wall_us a ?= wall_us b)
  | Some oa, Some ob => Some (utc_us a oa ?= utc_us b ob)
  | _, _ => None
  end.

Definition eqb (a b : datetime) : bool :=
  match cmp a b with Some Eq => true | _ => false end.

Definition lt (a b : datetime) : result bool :=
  match cmp a b with
  | Some Lt => Ok true
  | Some _ => Ok false
  | None => Raise TypeError
  end.

Definition gt (a b : datetime) : result bool :=
  match cmp a b with
  | Some Gt => Ok true
  | Some _ => Ok false
  | None => Raise TypeError
  end.

(** [_format_offset]: [+HH:MM], with [:SS] when the offset has seconds. *)
Definition format_offset (off : Z) : string :=
  let a := Z.abs off in
  (if off <? 0 then "-" else "+")
  ++ PyStr.zero_pad 2 (a / 3600) ++ ":" ++ PyStr.zero_pad 2 ((a mod 3600) / 60)
  ++ (if a mod 60 =? 0 then EmptyString else ":" ++ PyStr.zero_pad 2 (a mod 60)).

(** [str(d)], that is [d.isoformat(sep=' ')]. *)
Definition str (d : datetime) : string :=
  PyStr.zero_pad 4 (year d) ++ "-" ++ PyStr.zero_pad 2 (month d) ++ "-"
  ++ PyStr.zero_pad 2 (day d) ++ " "
  ++ PyStr.zero_pad 2 (hour d) ++ ":" ++ PyStr.zero_pad 2 (minute d) ++ ":"
  ++ PyStr.zero_pad 2 (second d)
  ++ (if microsecond d =? 0 then EmptyString
      else "." ++ PyStr.zero_pad 6 (microsecond d))
  ++ match tzinfo d with
     | None => EmptyString
     | Some off => format_offset off
     end.

End DT.

(** ** Python values met by the evaluator *)

Inductive pyval : Type :=
| PNone
| PBool (b : bool)
| PInt (z : Z)
| PStr (s : string)
| PDatetime (d : datetime).

Module Py.

(** [str(v)] *)
Definition str (v : pyval) : string :=
  match v with
  | PNone => "None"
  | PBool true => "True"
  | PBool false => "False"
  | PInt z => PyStr.of_int z
  | PStr s => s
  | PDatetime d => DT.str d
  end.

(** [a == b] *)
Definition eqb (a b : pyval) : bool :=
  match a, b with
  | PNone, PNone => true
  | PBool x, PBool y => Bool.eqb x y
  | PBool x, PInt y | PInt y, PBool x => Z.b2z x =? y
  | PInt x, PInt y => x =? y
  | PStr x, PStr y => String.eqb x y
  | PDatetime x, PDatetime y => DT.eqb x y
  | _, _ => false
  end.

(** [isinstance(v, datetime)] *)
Definition is_datetime (v : pyval) : bool :=
  match v with PDatetime _ => true | _ => false end.

(** [a < b]: numbers with numbers, texts with texts, datetimes with
    datetimes; every other pairing is a TypeError. *)
Definition lt (a b : pyval) : result bool :=
  match a, b with
  | PInt x, PInt y => Ok (x <? y)
  | PBool x, PInt y => Ok (Z.b2z x <? y)
  | PInt x, PBool y => Ok (x <? Z.b2z y)
  | PBool x, PBool y => Ok (Z.b2z x <? Z.b2z y)
  | PStr x, PStr y => Ok (String.ltb x y)
  | PDatetime x, PDatetime y => DT.lt x y
  | _, _ => Raise TypeError
  end.

(** [a > b] *)
Definition gt (a b : pyval) : result bool :=
  match a, b with
  | PInt x, PInt y => Ok (y <? x)
  | PBool x, PInt y => Ok (y <? Z.b2z x)
  | PInt x, PBool y => Ok (Z.b2z y <? x)
  | PBool x, PBool y => Ok (Z.b2z y <? Z.b2z x)
  | PStr x, PStr y => Ok (String.ltb y x)
  | PDatetime x, PDatetime y => DT.gt x y
  | _, _ => Raise TypeError
  end.

End Py.

(** ** The [Email] row of [models.py] *)

Module Email.

(** Columns of table [emails].  [sender] and [received] are declared
    [nullable=False]; [to], [subject] and [body] may hold NULL. *)
Record t : Type := mk {
  id : string;
  sender : string;
  to : option string;
  subject : option string;
  body : option string;
  received : datetime;
  is_read : bool
}.

Definition set_is_read (b : bool) (e : t) : t :=
  mk (id e) (sender e) (to e) (subject e) (body e) (received e) b.

End Email.

(** A nullable text column read from a row. *)
Definition column (c : option string) : pyval :=
  match c with
  | Some s => PStr s
  | None => PNone
  end.

(** ** Rules as read from [rules.json] *)

(** [{'field': ..., 'predicate': ..., 'value': ...}] *)
Record Condition : Type := mk_condition {
  c_field : string;
  c_predicate : string;
  c_value : pyval
}.

(** [{'predicate': 'All' | 'Any', 'rules': [...]}] *)
Record RuleConditions : Type := mk_rule_conditions {
  rc_predicate : string;
  rc_rules : list Condition
}.

(** [{'type': ..., 'params': {...}}]; [a_params] is [None] when the
    action has no ['params'] key. *)
Record Action : Type := mk_action {
  a_type : string;
  a_params : option (gmap string string)
}.

(** [{'name': ..., 'conditions': ..., 'actions': [...]}] *)
Record Rule : Type := mk_rule {
  r_name : string;
  r_conditions : RuleConditions;
  r_actions : list Action
}.

(** [all(results)] and [any(results)] *)
Definition all (results : list bool) : bool := forallb (fun b => b) results.
Definition any (results : list bool) : bool := existsb (fun b => b) results.

(** Evaluate [f] on every element, left to right, stopping at the first
    exception: a list comprehension whose body may raise. *)
Fixpoint comprehension {A B} (f : A -> result B) (l : list A) : result (list B) :=
  match l with
  | [] => Ok []
  | x :: t =>
      match f x with
      | Ok y =>
          match comprehension f t with
          | Ok ys => Ok (y :: ys)
          | Raise e => Raise e
          end
      | Raise e => Raise e
      end
  end.

Section Evaluator.

(** [dateutil.parser.parse] on a text: the parsed datetime, or [None]
    when the library raises ParserError. *)
Variable parse : string -> option datetime.

(** [dateutil.parser.parse(value)]: anything but a text is a TypeError. *)
Definition dateutil_parse (value : pyval) : result pyval :=
  match value with
  | PStr s =>
      match parse s with
      | Some d => Ok (PDatetime d)
      | None => Raise ParserError
      end
  | _ => Raise TypeError
  end.

(** Lines 35-47 of [_evaluate_condition]: the pair
    [(field_value, value)] the predicates work on, or [None] for the
    final [else: return False]. *)
Definition resolve_field (email : Email.t) (field : string) (value : pyval)
  : result (option (pyval * pyval)) :=
  if String.eqb field "From" then
    Ok (Some (PStr (Email.sender email), value))
  else if String.eqb field "To" then
    Ok (Some (column (Email.to email), value))
  else if String.eqb field "Subject" then
    Ok (Some (column (Email.subject email), value))
  else if String.eqb field "Message" then
    Ok (Some (column (Email.body email), value))
  else if String.eqb field "Received" then
    let field_value := PDatetime (DT.replace_tzinfo (Email.received email) (Some 0)) in
    rbind (dateutil_parse value) (fun value => Ok (Some (field_value, value)))
  else
    Ok None.

(** Lines 49-67 of [_evaluate_condition]: the predicate dispatch. *)
Definition apply_predicate (predicate : string) (field_value value : pyval)
  : result bool :=
  if String.eqb predicate "Contains" then
    Ok (PyStr.contains (PyStr.lower (Py.str value)) (PyStr.lower (Py.str field_value)))
  else if String.eqb predicate "Does not Contain" then
    Ok (negb (PyStr.contains (PyStr.lower (Py.str value))
                             (PyStr.lower (Py.str field_value))))
  else if String.eqb predicate "Equals" then
    match field_value, value with
    | PStr f, PStr v => Ok (String.eqb (PyStr.lower f) (PyStr.lower v))
    | _, _ => Ok (Py.eqb field_value value)
    end
  else if String.eqb predicate "Does not Equal" then
    match field_value, value with
    | PStr f, PStr v => Ok (negb (String.eqb (PyStr.lower f) (PyStr.lower v)))
    | _, _ => Ok (negb (Py.eqb field_value value))
    end
  else if String.eqb predicate "Less Than" && Py.is_datetime field_value then
    Py.lt field_value value
  else if String.eqb predicate "Greater Than" && Py.is_datetime field_value then
    Py.gt field_value value
  else
    Ok false.

(** [RuleProcessor._evaluate_condition] *)
Definition _evaluate_condition (email : Email.t) (condition : Condition)
  : result bool :=
  let field := c_field condition in
  let predicate := c_predicate condition in
  let value := c_value condition in
  match resolve_field email field value with
  | Raise e => Raise e
  | Ok None => Ok false
  | Ok (Some (field_value, value)) => apply_predicate predicate field_value value
  end.

(** [RuleProcessor._evaluate_rule_conditions] *)
Definition _evaluate_rule_conditions (email : Email.t) (rule_conditions : RuleConditions)
  : result bool :=
  let predicate := rc_predicate rule_conditions in
  let conditions := rc_rules rule_conditions in
  rbind (comprehension (_evaluate_condition email) conditions) (fun results =>
  if String.eqb predicate "All" then Ok (all results)
  else if String.eqb predicate "Any" then Ok (any results)
  else Ok false).

End Evaluator.

(** ** A date parser for the worked examples

    [dateutil.parser.parse] is a library outside the repository; the
    development takes it as the parameter [parse] above.  The worked
    examples run on [iso_parse], which reads the three ISO-8601 shapes
    [YYYY-MM-DD], [YYYY-MM-DDTHH:MM:SS] and [YYYY-MM-DDTHH:MM:SSZ] as
    dateutil does (naive for the first two, UTC for the third) and
    rejects every other text. *)

Module Iso.

Definition digit (c : ascii) : option Z :=
  let n := nat_of_ascii c in
  if ((48 <=? n)%nat && (n <=? 57)%nat)%bool then Some (Z.of_nat (n - 48)) else None.

(** The decimal number written by [cs], all of them digits. *)
Fixpoint number (acc : Z) (cs : list ascii) : option Z :=
  match cs with
  | [] => Some acc
  | c :: t =>
      match digit c with
      | Some d => number (acc * 10 + d) t
      | None => None
      end
  end.

Definition in_range (lo hi x : Z) : bool := (lo <=? x) && (x <=? hi).

Definition build (y mo d h mi s : list ascii) (tz : option Z) : option datetime :=
  match number 0 y, number 0 mo, number 0 d, number 0 h, number 0 mi, number 0 s with
  | Some y, Some mo, Some d, Some h, Some mi, Some s =>
      if in_range 1 9999 y && in_range 1 12 mo
         && in_range 1 (DT.days_in_month y mo) d
         && in_range 0 23 h && in_range 0 59 mi && in_range 0 59 s
      then Some (mk_datetime y mo d h mi s 0 tz)
      else None
  | _, _, _, _, _, _ => None
  end.

Definition zero2 : list ascii := ["0"; "0"]%char.

Definition parse_chars (cs : list ascii) : option datetime :=
  match cs with
  | [y1; y2; y3; y4; "-"; m1; m2; "-"; d1; d2]%char =>
      build [y1; y2; y3; y4] [m1; m2] [d1; d2] zero2 zero2 zero2 None
  | [y1; y2; y3; y4; "-"; m1; m2; "-"; d1; d2; "T";
     h1; h2; ":"; i1; i2; ":"; s1; s2]%char =>
      build [y1; y2; y3; y4] [m1; m2] [d1; d2] [h1; h2] [i1; i2] [s1; s2] None
  | [y1; y2; y3; y4; "-"; m1; m2; "-"; d1; d2; "T";
     h1; h2; ":"; i1; i2; ":"; s1; s2; "Z"]%char =>
      build [y1; y2; y3; y4] [m1; m2] [d1; d2] [h1; h2] [i1; i2] [s1; s2] (Some 0)
  | _ => None
  end.

End Iso.

Definition iso_parse (s : string) : option datetime :=
  Iso.parse_chars (list_ascii_of_string s).

(** ** The Gmail service

    The remote mailbox is a state machine: the account's labels, the
    label ids carried by each message, and a journal of every request
    it executed.  Whether a request fails is not decided by the client:
    [faults] is the schedule of outcomes, its head deciding the next
    request ([true]: the request raises HttpError and changes nothing;
    an exhausted schedule means success). *)

(** [{'id': ..., 'name': ...}] *)
Record label : Type := mk_label { l_id : string; l_name : string }.

Inductive request : Type :=
| MessagesModify (id : string) (addLabelIds removeLabelIds : list string)
| MessagesTrash (id : string)
| LabelsList
| LabelsCreate (name : string).

Inductive outcome : Type := Done | Failed.

Record gmail : Type := mk_gmail {
  labels : list label;
  message_labels : gmap string (gset string);
  next_label : nat;
  requests : list (request * outcome);
  faults : list bool
}.

Module Gmail.

Definition failing (g : gmail) : bool :=
  match faults g with
  | b :: _ => b
  | [] => false
  end.

(** Journal the request with its outcome and consume one entry of the
    schedule. *)
Definition journal (rq : request) (g : gmail) : gmail :=
  mk_gmail (labels g) (message_labels g) (next_label g)
           (requests g ++ [(rq, if failing g then Failed else Done)])
           (tail (faults g)).

Definition labels_of (id : string) (g : gmail) : gset string :=
  default ∅ (message_labels g !! id).

Definition set_labels (id : string) (ls : gset string) (g : gmail) : gmail :=
  mk_gmail (labels g) (<[id := ls]> (message_labels g)) (next_label g)
           (requests g) (faults g).

(** [users().messages().modify(userId='me', id=id, body=...).execute()] *)
Definition modify (id : string) (add remove : list string) (g : gmail)
  : gmail * result unit :=
  let g' := journal (MessagesModify id add remove) g in
  if failing g then (g', Raise HttpError)
  else (set_labels id ((labels_of id g ∪ list_to_set add) ∖ list_to_set remove) g',
        Ok tt).

(** [users().messages().trash(userId='me', id=id).execute()] *)
Definition trash (id : string) (g : gmail) : gmail * result unit :=
  let g' := journal (MessagesTrash id) g in
  if failing g then (g', Raise HttpError)
  else (set_labels id (labels_of id g ∪ {["TRASH"]}) g', Ok tt).

(** [users().labels().list(userId='me').execute()['labels']] *)
Definition list_labels (g : gmail) : gmail * result (list label) :=
  let g' := journal LabelsList g in
  if failing g then (g', Raise HttpError) else (g', Ok (labels g)).

(** [users().labels().create(userId='me', body={'name': name}).execute()]:
    the service picks the id of the new label. *)
Definition create_label (name : string) (g : gmail) : gmail * result label :=
  let g' := journal (LabelsCreate name) g in
  if failing g then (g', Raise HttpError)
  else
    let l := mk_label ("Label_" ++ PyStr.of_int (Z.of_nat (next_label g))) name in
    (mk_gmail (labels g' ++ [l]) (message_labels g') (S (next_label g'))
              (requests g') (faults g'),
     Ok l).

End Gmail.

(** ** The logger

    One constructor per [logger] call of [process_rules.py]; the level
    is the method called. *)

Inductive event : Type :=
| ServiceNotInitialized
| MarkedRead (email_id : string)
| MarkedUnread (email_id : string)
| Starred (email_id : string)
| StarRemoved (email_id : string)
| LabelCreated (label_name : string)
| LabelApplied (label_name email_id : string)
| LabelError (label_name email_id : string) (e : exn)
| Trashed (email_id : string)
| Archived (email_id : string)
| ActionError (action_type email_id : string) (e : exn)
| ProcessingRecent (limit n_rules : nat)
| ProcessingAll (n_rules : nat)
| Found (n_emails : nat)
| RuleMatched (rule_name email_id : string)
| Progress (processed_count : nat)
| Completed (processed_count : nat)
| ProcessingError (e : exn).

Inductive level : Type := INFO | ERROR | SUCCESS.

Definition level_of (ev : event) : level :=
  match ev with
  | ServiceNotInitialized | LabelError _ _ _ | ActionError _ _ _
  | ProcessingError _ => ERROR
  | Completed _ => SUCCESS
  | _ => INFO
  end.

(** ** The processor's world and its monad

    [gmail_service] is [self.gmail_service] ([None] when
    [get_gmail_service] failed), [table] the rows of [emails] behind
    [self.session], each under its primary key [id], [session_closed]
    whether [self.session.close()] ran, and [log] what the logger
    received, oldest first. *)

Record world : Type := mk_world {
  gmail_service : option gmail;
  table : gmap string Email.t;
  session_closed : bool;
  log : list event
}.

(** A statement: it updates the world and either yields a value or
    raises.  Updates made before an exception stay. *)
Definition M (A : Type) : Type := world -> world * result A.

#[global] Instance M_ret : MRet M := fun A a w => (w, Ok a).
#[global] Instance M_bind : MBind M := fun A B k m w =>
  match m w with
  | (w', Ok a) => k a w'
  | (w', Raise e) => (w', Raise e)
  end.

(** A pure computation that may raise. *)
Definition lift {A} (r : result A) : M A := fun w => (w, r).

(** [try: body except Exception as e: handler(e)] *)
Definition try_except {A} (body : M A) (handler : exn -> M A) : M A := fun w =>
  match body w with
  | (w', Ok a) => (w', Ok a)
  | (w', Raise e) => handler e w'
  end.

(** [try: body finally: final] *)
Definition try_finally {A} (body : M A) (final : M unit) : M A := fun w =>
  match body w with
  | (w', r) =>
      match final w' with
      | (w'', Ok _) => (w'', r)
      | (w'', Raise e) => (w'', Raise e)
      end
  end.

(** [logger.info], [logger.error], [logger.success] *)
Definition logger (ev : event) : M unit := fun w =>
  (mk_world (gmail_service w) (table w) (session_closed w) (log w ++ [ev]), Ok tt).

(** [self.gmail_service] *)
Definition self_gmail_service : M (option gmail) := fun w => (w, Ok (gmail_service w)).

(** A request through [self.gmail_service]. *)
Definition remote {A} (call : gmail -> gmail * result A) : M A := fun w =>
  match gmail_service w with
  | Some g =>
      let (g', r) := call g in
      (mk_world (Some g') (table w) (session_closed w) (log w), r)
  | None => (w, Raise AttributeError)
  end.

(** [self.session.query(Email).filter_by(id=email_id).first()] *)
Definition query_first (email_id : string) : M (option Email.t) := fun w =>
  (w, Ok (table w !! email_id)).

(** [email_obj.is_read = b; self.session.commit()] *)
Definition commit_is_read (email_id : string) (b : bool) : M unit := fun w =>
  (mk_world (gmail_service w) (alter (Email.set_is_read b) email_id (table w))
            (session_closed w) (log w), Ok tt).

(** [self.session.close()] *)
Definition session_close : M unit := fun w =>
  (mk_world (gmail_service w) (table w) true (log w), Ok tt).

(** ** The action applicator *)

(** [action['params'][key]] *)
Definition param (action : Action) (key : string) : result string :=
  match a_params action with
  | None => Raise (KeyError "params")
  | Some params =>
      match params !! key with
      | Some v => Ok v
      | None => Raise (KeyError key)
      end
  end.

(** [next((label for label in labels if label['name'].lower() ==
    label_name.lower()), None)] *)
Definition find_label (label_name : string) (ls : list label) : option label :=
  find (fun l => String.eqb (PyStr.lower (l_name l)) (PyStr.lower label_name)) ls.

(** [RuleProcessor._apply_action] *)
Definition _apply_action (email_id : string) (action : Action) : M unit :=
  let action_type := a_type action in
  try_except
    (service ← self_gmail_service;
     (if service is None then
        logger ServiceNotInitialized
      else if String.eqb action_type "mark_as_read" then
        remote (Gmail.modify email_id [] ["UNREAD"]);;
        email_obj ← query_first email_id;
        (if email_obj is Some _ then commit_is_read email_id true else mret tt);;
        logger (MarkedRead email_id)
      else if String.eqb action_type "mark_as_unread" then
        remote (Gmail.modify email_id ["UNREAD"] []);;
        email_obj ← query_first email_id;
        (if email_obj is Some _ then commit_is_read email_id false else mret tt);;
        logger (MarkedUnread email_id)
      else if String.eqb action_type "add_star" then
        remote (Gmail.modify email_id ["STARRED"] []);;
        logger (Starred email_id)
      else if String.eqb action_type "remove_star" then
        remote (Gmail.modify email_id [] ["STARRED"]);;
        logger (StarRemoved email_id)
      else if String.eqb action_type "move_message" then
        label_name ← lift (param action "label");
        try_except
          (label_list ← remote Gmail.list_labels;
           label ← match find_label label_name label_list with
                   | Some l => mret l
                   | None =>
                       l ← remote (Gmail.create_label label_name);
                       logger (LabelCreated label_name);;
                       mret l
                   end;
           remote (Gmail.modify email_id [l_id label] []);;
           logger (LabelApplied label_name email_id))
          (fun e => logger (LabelError label_name email_id e))
      else if String.eqb action_type "move_to_trash" then
        remote (Gmail.trash email_id);;
        logger (Trashed email_id)
      else if String.eqb action_type "archive_message" then
        remote (Gmail.modify email_id [] ["INBOX"]);;
        logger (Archived email_id)
      else
        mret tt))
    (fun e => logger (ActionError action_type email_id e)).

(** ** The engine pass *)

(** The key of [ORDER BY emails.received]: the stored wall-clock
    reading. *)
Definition received_ts (e : Email.t) : Z := DT.wall_us (Email.received e).

(** [a] may come before [b] under [Email.received.desc()]. *)
Definition received_desc (a b : Email.t) : Prop := received_ts b <= received_ts a.

#[global] Instance received_desc_dec a b : Decision (received_desc a b).
Proof. unfold received_desc. apply _. Defined.

(** [query.all()] for [session.query(Email).order_by(Email.received.desc())],
    with [.limit(limit)] when a limit is given.  SQL leaves the order of
    rows with equal keys open; the sort below fixes one. *)
Definition query_all (limit : option nat) (rows : gmap string Email.t) : list Email.t :=
  let ordered := merge_sort received_desc (snd <$> map_to_list rows) in
  match limit with
  | Some n => take n ordered
  | None => ordered
  end.

Section Engine.

Variable parse : string -> option datetime.

(** [self.rules] *)
Variable rules : list Rule.

(** [for action in rule['actions']: self._apply_action(email.id, action)] *)
Fixpoint for_actions (email_id : string) (actions : list Action) : M unit :=
  match actions with
  | [] => mret tt
  | action :: rest => _apply_action email_id action;; for_actions email_id rest
  end.

(** [for rule in self.rules: if self._evaluate_rule_conditions(...): ...] *)
Fixpoint for_rules (email : Email.t) (rs : list Rule) : M unit :=
  match rs with
  | [] => mret tt
  | rule :: rest =>
      matched ← lift (_evaluate_rule_conditions parse email (r_conditions rule));
      (if matched : bool then
         logger (RuleMatched (r_name rule) (Email.id email));;
         for_actions (Email.id email) (r_actions rule)
       else mret tt);;
      for_rules email rest
  end.

(** [for email in emails: ...], threading [processed_count]. *)
Fixpoint for_emails (emails : list Email.t) (processed_count : nat) : M nat :=
  match emails with
  | [] => mret processed_count
  | email :: rest =>
      for_rules email rules;;
      let processed_count := S processed_count in
      (if (processed_count mod 10 =? 0)%nat then logger (Progress processed_count)
       else mret tt);;
      for_emails rest processed_count
  end.

(** [RuleProcessor.process_emails] *)
Definition process_emails (limit : option nat) : M unit :=
  try_finally
    (try_except
       ((match limit with
         | Some n => logger (ProcessingRecent n (length rules))
         | None => logger (ProcessingAll (length rules))
         end);;
        emails ← (fun w => (w, Ok (query_all limit (table w))));
        logger (Found (length emails));;
        processed_count ← for_emails emails 0;
        logger (Completed processed_count))
       (fun e => logger (ProcessingError e)))
    session_close.

End Engine.


(** * Vocabulary of the statements *)

(** The field selectors [_evaluate_condition] resolves. *)
Definition recognized_fields : list string :=
  ["From"; "To"; "Subject"; "Message"; "Received"].

(** The action types [_apply_action] knows. *)
Definition action_types : list string :=
  ["mark_as_read"; "mark_as_unread"; "add_star"; "remove_star";
   "move_message"; "move_to_trash"; "archive_message"].

(** The requests the service executed between two worlds, and the
    events logged between them. *)
Definition issued (w w' : world) : list (request * outcome) :=
  match gmail_service w, gmail_service w' with
  | Some g, Some g' => drop (length (requests g)) (requests g')
  | _, _ => []
  end.

Definition logged (w w' : world) : list event := drop (length (log w)) (log w').

(** Whether the request after the next [k] ones fails. *)
Definition fails_at (k : nat) (g : gmail) : bool := default false (faults g !! k).

(** ** The pass as a flat sequence of steps

    What one pass does, told the way the engine is described: walk the
    messages in the order of the query, for each message walk the rules
    in file order, and for each rule that matches announce the match and
    apply its actions in order. *)

Inductive step : Type :=
| Emit (ev : event)
| Apply (email_id : string) (action : Action).

Definition run_step (w : world) (s : step) : world :=
  match s with
  | Emit ev => fst (logger ev w)
  | Apply email_id action => fst (_apply_action email_id action w)
  end.

Definition run_steps (steps : list step) (w : world) : world :=
  fold_left run_step steps w.

Definition matches (parse : string -> option datetime) (email : Email.t) (rule : Rule)
  : bool :=
  match _evaluate_rule_conditions parse email (r_conditions rule) with
  | Ok true => true
  | _ => false
  end.

Definition rule_steps (parse : string -> option datetime) (email : Email.t) (rule : Rule)
  : list step :=
  if matches parse email rule
  then Emit (RuleMatched (r_name rule) (Email.id email))
       :: map (Apply (Email.id email)) (r_actions rule)
  else [].

Definition progress_steps (processed_count : nat) : list step :=
  if (processed_count mod 10 =? 0)%nat then [Emit (Progress processed_count)] else [].

(** The steps for the messages [emails], [processed_count] messages
    having been handled before them. *)
Fixpoint pass_steps (parse : string -> option datetime) (rules : list Rule)
  (processed_count : nat) (emails : list Email.t) : list step :=
  match emails with
  | [] => []
  | email :: rest =>
      flat_map (rule_steps parse email) rules
      ++ progress_steps (S processed_count)
      ++ pass_steps parse rules (S processed_count) rest
  end.

(** The announcement that opens a pass. *)
Definition opening (limit : option nat) (rules : list Rule) : event :=
  match limit with
  | Some n => ProcessingRecent n (length rules)
  | None => ProcessingAll (length rules)
  end.

(** Every rule's matcher returns, True or False, on the message. *)
Definition rules_return (parse : string -> option datetime) (rules : list Rule)
  (email : Email.t) : Prop :=
  Forall (fun rule =>
    exists b, _evaluate_rule_conditions parse email (r_conditions rule) = Ok b) rules.

(** The matcher returns on every rule for every message of the list. *)
Definition matcher_returns (parse : string -> option datetime) (rules : list Rule)
  (emails : list Email.t) : Prop :=
  Forall (rules_return parse rules) emails.

(** ** Sample data *)

(** The message of [test_rules.py]. *)
Definition test_email : Email.t :=
  Email.mk "test123" "test@example.com" None (Some "Test Subject")
           (Some "Test message body") (mk_datetime 2023 1 1 12 0 0 0 None) false.

Definition invoice : Email.t :=
  Email.mk "m1" "billing@acme.com" (Some "me@example.com") (Some "Invoice Due")
           (Some "Payment is due") (mk_datetime 2024 1 1 0 0 0 0 None) false.

Definition newsletter : Email.t :=
  Email.mk "m2" "news@example.com" (Some "me@example.com") (Some "Weekly digest")
           None (mk_datetime 2024 1 2 9 30 0 0 None) false.

Definition inbox : gmap string Email.t :=
  <["m1" := invoice]> (<["m2" := newsletter]> ∅).

(** An account with one user label; [schedule] decides which requests
    fail. *)
Definition account (schedule : list bool) : gmail :=
  mk_gmail [mk_label "Label_1" "Important"] ∅ 2 [] schedule.

Definition world0 (schedule : list bool) : world :=
  mk_world (Some (account schedule)) inbox false [].

(** [{'type': 'move_message', 'params': {'label': label_name}}] *)
Definition move_to (label_name : string) : Action :=
  mk_action "move_message" (Some {["label" := label_name]}).

Definition star_all : Rule :=
  mk_rule "star everything" (mk_rule_conditions "All" [])
          [mk_action "add_star" None].

Definition archive_all : Rule :=
  mk_rule "archive everything" (mk_rule_conditions "All" [])
          [mk_action "archive_message" None].

(** A date condition whose value no date parser accepts. *)
Definition bad_date : Condition :=
  mk_condition "Received" "Less Than" (PStr "not a date").

Definition trash_old : Rule :=
  mk_rule "trash old mail" (mk_rule_conditions "All" [bad_date])
          [mk_action "move_to_trash" None].

(** A true condition followed by a date condition whose value does not
    parse. *)
Definition any_with_bad_date : RuleConditions :=
  mk_rule_conditions "Any"
    [mk_condition "Subject" "Contains" (PStr "Test");
     mk_condition "Received" "Equals" (PStr "not a date")].

(** ** More vocabulary: the evaluator *)

(** The selectors that resolve to a text column, and the predicates
    [_evaluate_condition] knows. *)
Definition text_fields : list string := ["From"; "To"; "Subject"; "Message"].

Definition predicates : list string :=
  ["Contains"; "Does not Contain"; "Equals"; "Does not Equal";
   "Less Than"; "Greater Than"].

(** The column a text selector reads, as the evaluator sees it. *)
Definition text_column (email : Email.t) (field : string) : pyval :=
  if String.eqb field "From" then PStr (Email.sender email)
  else if String.eqb field "To" then column (Email.to email)
  else if String.eqb field "Subject" then column (Email.subject email)
  else column (Email.body email).

(** ** More vocabulary: the applicator and the pass *)

(** The action types that issue one request on the message and nothing
    else. *)
Definition simple_action_types : list string :=
  ["mark_as_read"; "mark_as_unread"; "add_star"; "remove_star";
   "move_to_trash"; "archive_message"].

(** The message a request names, if any. *)
Definition request_about (rq : request) : option string :=
  match rq with
  | MessagesModify id _ _ => Some id
  | MessagesTrash id => Some id
  | LabelsList => None
  | LabelsCreate _ => None
  end.

(** A row with its read flag blanked: what the engine never changes. *)
Definition columns (e : Email.t) : Email.t := Email.set_is_read false e.

(** The messages the [Apply] steps of a list act on. *)
Definition applied_ids (steps : list step) : list string :=
  flat_map (fun s => match s with Apply id _ => [id] | Emit _ => [] end) steps.

(** * Ingestion: [fetch_emails.py]

    [fetch_and_store_emails] lists the messages of the inbox, fetches
    each one and merges a row for it into the table.  The collaborators
    are embedded as follows.
    - The service answers from [pages], the listing of the inbox page
      by page for the parameters of the run (a response carries a
      [nextPageToken] when a page follows), and from [mail], the
      messages by id; [faults] schedules the requests that raise, as
      for the rule engine.
    - A session holds the rows merged since the last commit; committing
      writes them to the table, closing forgets them.  [db_faults]
      schedules the calls of the session, merges and commit, that
      raise.
    - [base64.urlsafe_b64decode(..).decode()] and
      [email.utils.parsedate_to_datetime] are parameters, [None] where
      they raise; [datetime.now()] is the parameter [now]. *)

Module Fetch.

Inductive error : Type :=
| HttpError
| KeyError (key : string)
| DecodeError
| DatabaseError.

Inductive res (A : Type) : Type :=
| Val (a : A)
| Exc (e : error).
Arguments Val {A} a.
Arguments Exc {A} e.

(** [part['body'].get('data')] of a part of the payload. *)
Record part : Type := mk_part { part_data : option string }.

(** A message resource in [format='full']: [msg['id']], the pairs
    [(h['name'], h['value'])] of [msg['payload']['headers']],
    [msg['payload']['body']['data']], [msg['payload']['parts']] and
    [msg['labelIds']], the last three where the key is present. *)
Record message : Type := mk_message {
  msg_id : string;
  headers : list (string * string);
  body_data : option string;
  parts : option (list part);
  labelIds : option (list string)
}.

Inductive call : Type :=
| ListMessages (maxResults : option nat) (pageToken : option nat)
| GetMessage (id : string).

Record server : Type := mk_server {
  pages : list (list string);
  mail : gmap string message;
  journal : list (call * outcome);
  faults : list bool
}.

Inductive event : Type :=
| InitFailed                               (* error *)
| FetchingUpTo (max_results : nat)
| FetchingAll
| Found (n_messages : nat)
| DateError                                (* error, in parse_email_date *)
| Progress (processed_count : nat)
| StoreError (id : string) (e : error)     (* error *)
| Stored (processed_count : nat)           (* success *)
| FetchError (e : error).                  (* error *)

(** [service] and [session_factory] are what [get_gmail_service] and
    [init_db] returned; [table] the committed rows; [pending] the rows
    merged into the open session, oldest first. *)
Record world : Type := mk_world {
  service : option server;
  session_factory : bool;
  table : gmap string Email.t;
  pending : list Email.t;
  db_faults : list bool;
  closed : bool;
  log : list event
}.

Definition F (A : Type) : Type := world -> world * res A.

#[global] Instance F_ret : MRet F := fun A a w => (w, Val a).
#[global] Instance F_bind : MBind F := fun A B k m w =>
  match m w with
  | (w', Val a) => k a w'
  | (w', Exc e) => (w', Exc e)
  end.

Definition lift {A} (r : res A) : F A := fun w => (w, r).

(** [try: body except Exception as e: handler(e)] *)
Definition try_except {A} (body : F A) (handler : error -> F A) : F A := fun w =>
  match body w with
  | (w', Val a) => (w', Val a)
  | (w', Exc e) => handler e w'
  end.

Definition logger (ev : event) : F unit := fun w =>
  (mk_world (service w) (session_factory w) (table w) (pending w) (db_faults w)
            (closed w) (log w ++ [ev]), Val tt).

Definition failing (s : server) : bool :=
  match faults s with
  | b :: _ => b
  | [] => false
  end.

(** One request: it consumes one entry of the schedule, raises
    HttpError when that entry says so, and is journalled with its
    outcome. *)
Definition request {A} (c : call) (answer : server -> res A) : F A := fun w =>
  match service w with
  | Some s =>
      let r := if failing s then Exc HttpError else answer s in
      let s' := mk_server (pages s) (mail s)
                  (journal s ++ [(c, match r with Val _ => Done | Exc _ => Failed end)])
                  (tail (faults s)) in
      (mk_world (Some s') (session_factory w) (table w) (pending w) (db_faults w)
                (closed w) (log w), r)
  | None => (w, Exc HttpError)
  end.

(** [service.users().messages().get(userId='me', id=id, format='full')
    .execute()]: an id the service does not know is an HttpError. *)
Definition get_message (id : string) : F message :=
  request (GetMessage id)
          (fun s => match mail s !! id with
                    | Some m => Val m
                    | None => Exc HttpError
                    end).

(** [session = Session()]: a fresh session, nothing merged yet. *)
Definition open_session : F unit := fun w =>
  (mk_world (service w) (session_factory w) (table w) [] (db_faults w) false (log w),
   Val tt).

(** [session.merge(email_obj)] *)
Definition merge (e : Email.t) : F unit := fun w =>
  match db_faults w with
  | true :: rest =>
      (mk_world (service w) (session_factory w) (table w) (pending w) rest
                (closed w) (log w), Exc DatabaseError)
  | _ =>
      (mk_world (service w) (session_factory w) (table w) (pending w ++ [e])
                (tail (db_faults w)) (closed w) (log w), Val tt)
  end.

(** What SQLite keeps of a row: a [DateTime] column stores the calendar
    fields and no zone. *)
Definition stored (e : Email.t) : Email.t :=
  Email.mk (Email.id e) (Email.sender e) (Email.to e) (Email.subject e)
           (Email.body e) (DT.replace_tzinfo (Email.received e) None)
           (Email.is_read e).

(** The table after the rows [rows] have been written in order, each
    under its primary key. *)
Definition write (rows : list Email.t) (t : gmap string Email.t) : gmap string Email.t :=
  fold_left (fun t e => <[Email.id e := stored e]> t) rows t.

(** [session.commit()]: the rows of the session are written, or the
    commit raises and none is. *)
Definition commit : F unit := fun w =>
  match db_faults w with
  | true :: rest =>
      (mk_world (service w) (session_factory w) (table w) (pending w) rest
                (closed w) (log w), Exc DatabaseError)
  | _ =>
      (mk_world (service w) (session_factory w) (write (pending w) (table w)) []
                (tail (db_faults w)) (closed w) (log w), Val tt)
  end.

(** [session.close()] *)
Definition close (w : world) : world :=
  mk_world (service w) (session_factory w) (table w) [] (db_faults w) true (log w).

Section FetchEmails.

Variable b64decode : string -> option string.
Variable parsedate : string -> option datetime.
Variable now : datetime.

(** [parse_email_date] *)
Definition parse_email_date (date_str : string) : F datetime :=
  match parsedate date_str with
  | Some d => mret d
  | None => logger DateError;; mret now
  end.

(** [next((h['value'] for h in headers if h['name'].lower() == name), '')] *)
Definition header (name : string) (hs : list (string * string)) : string :=
  match find (fun h => String.eqb (PyStr.lower h.1) name) hs with
  | Some h => h.2
  | None => EmptyString
  end.

Definition decode (data : string) : res string :=
  match b64decode data with
  | Some text => Val text
  | None => Exc DecodeError
  end.

(** Lines 90-95: the body of the message. *)
Definition message_body (msg : message) : res string :=
  match body_data msg with
  | Some data => decode data
  | None =>
      let raw_body :=
        match parts msg with
        | Some (p :: _) => default EmptyString (part_data p)
        | _ => EmptyString
        end in
      match raw_body with
      | EmptyString => Val EmptyString
      | _ => decode raw_body
      end
  end.

(** Lines 84-105: the row built from a message resource. *)
Definition email_of (msg : message) : F Email.t :=
  let subject := header "subject" (headers msg) in
  let sender := header "from" (headers msg) in
  let to := header "to" (headers msg) in
  let date_received := header "date" (headers msg) in
  body ← lift (message_body msg);
  received ← parse_email_date date_received;
  labels ← lift (match labelIds msg with
                 | Some ls => Val ls
                 | None => Exc (KeyError "labelIds")
                 end);
  mret (Email.mk (msg_id msg) sender (Some to) (Some subject) (Some body) received
                 (negb (bool_decide ("UNREAD" ∈ labels)))).

(** The answer to a listing request for page [k]: the ids of the page,
    and whether a [nextPageToken] comes with it. *)
Definition page_answer (k : nat) (s : server) : res (list string * bool) :=
  Val (default [] (pages s !! k), bool_decide (S k < length (pages s))%nat).

(** [service.users().messages().list(...).execute()],
    asking for page [k]. *)
Definition list_page (max_results page_token : option nat) (k : nat)
  : F (list string * bool) :=
  request (ListMessages max_results page_token) (page_answer k).

(** Lines 68-72: follow [nextPageToken] while a response carries one.
    [k] is the page asked next; [more], the pages the service has yet
    to serve, bounds the loop. *)
Fixpoint following_pages (more : list (list string)) (k : nat) : F (list string) :=
  match more with
  | [] => mret []
  | _ :: more' =>
      '(ids, next) ← list_page None (Some k) k;
      rest ← (if next : bool then following_pages more' (S k) else mret []);
      mret (ids ++ rest)%list
  end.

(** The pages of the service after the first. *)
Definition pages_after_first : F (list (list string)) := fun w =>
  (w, Val (match service w with
           | Some s => tail (pages s)
           | None => []
           end)).

(** Lines 64-72: the messages to fetch. *)
Definition list_messages (max_results : option nat) : F (list string) :=
  '(ids, next) ← list_page max_results None 0;
  match max_results with
  | None =>
      more ← pages_after_first;
      rest ← (if next : bool then following_pages more 1 else mret []);
      mret (ids ++ rest)%list
  | Some _ => mret ids
  end.

(** Lines 107-114: merge the row; a merge that raises is logged and the
    message skipped. *)
Definition store (msg : message) (email_obj : Email.t) (processed_count : nat) : F nat :=
  try_except
    (merge email_obj;;
     let processed_count := S processed_count in
     (if (processed_count mod 10 =? 0)%nat then logger (Progress processed_count)
      else mret tt);;
     mret processed_count)
    (fun e => logger (StoreError (msg_id msg) e);; mret processed_count).

(** Lines 76-114: the loop over the messages. *)
Fixpoint store_messages (ids : list string) (processed_count : nat) : F nat :=
  match ids with
  | [] => mret processed_count
  | id :: rest =>
      msg ← get_message id;
      email_obj ← email_of msg;
      processed_count ← store msg email_obj processed_count;
      store_messages rest processed_count
  end.

(** [fetch_and_store_emails] *)
Definition fetch_and_store_emails (max_results : option nat) (w : world) : world * nat :=
  if negb (bool_decide (is_Some (service w))) || negb (session_factory w) then
    (fst (logger InitFailed w), 0%nat)
  else
    let body : F nat :=
      open_session;;
      (match max_results with
       | Some n => logger (FetchingUpTo n)
       | None => logger FetchingAll
       end);;
      messages ← list_messages max_results;
      logger (Found (length messages));;
      processed_count ← store_messages messages 0;
      commit;;
      logger (Stored processed_count);;
      mret processed_count in
    match body w with
    | (w', Val processed_count) => (close w', processed_count)
    | (w', Exc e) => (close (fst (logger (FetchError e) w')), 0%nat)
    end.

(** ** Vocabulary of the statements about ingestion *)

(** The row [email_of] builds from a message resource, when it builds
    one. *)
Definition row_of (msg : message) : option Email.t :=
  match message_body msg, labelIds msg with
  | Val body, Some labels =>
      Some (Email.mk (msg_id msg) (header "from" (headers msg))
                     (Some (header "to" (headers msg)))
                     (Some (header "subject" (headers msg)))
                     (Some body)
                     (default now (parsedate (header "date" (headers msg))))
                     (negb (bool_decide ("UNREAD" ∈ labels))))
  | _, _ => None
  end.

(** [row] is the row of a message the service holds. *)
Definition fetched (held : gmap string message) (row : Email.t) : Prop :=
  exists id msg, held !! id = Some msg /\ row_of msg = Some row.

End FetchEmails.

(** The messages the service holds, none without a service. *)
Definition mail_of (w : world) : gmap string message :=
  match service w with
  | Some s => mail s
  | None => ∅
  end.

(** What listing and fetching leave alone: the table, the session, the
    schedule of the merges and the messages held. *)
Definition frame (w w' : world) : Prop :=
  table w' = table w /\ pending w' = pending w
  /\ db_faults w' = db_faults w
  /\ mail_of w' = mail_of w.

(** The next [n] requests are answered. *)
Definition answers (n : nat) (s : server) : Prop :=
  Forall (fun b => b = false) (take n (faults s)).

(** The server after [entries] more requests. *)
Definition journalled (entries : list (call * outcome)) (s : server) : server :=
  mk_server (pages s) (mail s) (journal s ++ entries) (drop (length entries) (faults s)).

Definition with_server (s : server) (w : world) : world :=
  mk_world (Some s) (session_factory w) (table w) (pending w) (db_faults w)
           (closed w) (log w).

(** The listing requests of a run and the ids they return: every page
    when there is no limit, the first page alone when there is one. *)
Definition listing (max_results : option nat) (s : server) : list (call * outcome) :=
  match max_results with
  | None =>
      (ListMessages None None, Done)
      :: map (fun k => (ListMessages None (Some k), Done))
             (seq 1 (length (pages s) - 1))
  | Some n => [(ListMessages (Some n) None, Done)]
  end.

Definition listed (max_results : option nat) (s : server) : list string :=
  match max_results with
  | None => concat (pages s)
  | Some _ => default [] (pages s !! 0%nat)
  end.

(** The rows that join the session when [rows] are merged in order
    under the schedule [fs]: those whose merge does not raise. *)
Fixpoint merged (rows : list Email.t) (fs : list bool) : list Email.t :=
  match rows with
  | [] => []
  | row :: rows' =>
      match fs with
      | true :: fs' => merged rows' fs'
      | _ => row :: merged rows' (tail fs)
      end
  end.


End Fetch.

(** * Authentication: [auth.py]

    [get_gmail_service] finds credentials, in the token file, by a
    refresh or by the login flow, saves them when they are new, and
    builds the service from them.  The file [token.pickle] is [None]
    when it does not exist and holds the pickled credentials otherwise;
    the three calls into the Google libraries are parameters, [None]
    where they raise, and are journalled in [calls]. *)

Module Auth.

(** What the function reads of [google.oauth2.credentials.Credentials]. *)
Record credentials : Type := mk_credentials {
  access_token : string;
  valid : bool;
  expired : bool;
  refresh_token : option string
}.

Inductive call : Type :=
| Refresh (creds : credentials)       (* creds.refresh(Request()) *)
| RunLocalServer                      (* InstalledAppFlow...run_local_server(port=0) *)
| Build (creds : credentials).        (* build('gmail', 'v1', credentials=creds) *)

Inductive event : Type :=
| RefreshError                        (* error *)
| OAuthError                          (* error *)
| ServiceCreated                      (* info *)
| BuildError.                         (* error *)

Record world : Type := mk_world {
  token_pickle : option credentials;
  calls : list call;
  log : list event
}.

Definition called (c : call) (w : world) : world :=
  mk_world (token_pickle w) (calls w ++ [c]) (log w).

Definition logger (ev : event) (w : world) : world :=
  mk_world (token_pickle w) (calls w) (log w ++ [ev]).

(** [pickle.dump(creds, token)] into [token.pickle] *)
Definition dump (creds : credentials) (w : world) : world :=
  mk_world (Some creds) (calls w) (log w).

(** Truth of [creds.refresh_token]: a text that is not empty. *)
Definition truthy (s : option string) : bool :=
  match s with
  | Some (String _ _) => true
  | _ => false
  end.

Section GetGmailService.

Variable service : Type.

(** [creds.refresh(Request())] updates the credentials in place: the
    credentials after it, [None] when it raises. *)
Variable refresh : credentials -> option credentials.
(** The credentials the login flow returns, [None] when it raises. *)
Variable run_local_server : option credentials.
Variable build : credentials -> option service.

(** Lines 30-43: the credentials after the refresh or the login, [None]
    on the paths that return early. *)
Definition renew (creds : option credentials) (w : world) : world * option credentials :=
  match creds with
  | Some c =>
      if expired c && truthy (refresh_token c) then
        match refresh c with
        | Some c' => (called (Refresh c) w, Some c')
        | None => (logger RefreshError (called (Refresh c) w), None)
        end
      else
        match run_local_server with
        | Some c' => (called RunLocalServer w, Some c')
        | None => (logger OAuthError (called RunLocalServer w), None)
        end
  | None =>
      match run_local_server with
      | Some c' => (called RunLocalServer w, Some c')
      | None => (logger OAuthError (called RunLocalServer w), None)
      end
  end.

(** Lines 49-56 *)
Definition build_service (creds : credentials) (w : world) : world * option service :=
  match build creds with
  | Some svc => (logger ServiceCreated (called (Build creds) w), Some svc)
  | None => (logger BuildError (called (Build creds) w), None)
  end.

(** [get_gmail_service] *)
Definition get_gmail_service (w : world) : world * option service :=
  let creds := token_pickle w in
  if match creds with
     | Some c => negb (valid c)
     | None => true
     end
  then
    match renew creds w with
    | (w', Some c) => build_service c (dump c w')
    | (w', None) => (w', None)
    end
  else
    match creds with
    | Some c => build_service c w
    | None => (w, None)
    end.

End GetGmailService.

(** The credentials in the token file can be renewed without the user:
    they are expired and carry a refresh token. *)
Definition refreshable (creds : option credentials) : Prop :=
  exists c, creds = Some c /\ expired c = true /\ truthy (refresh_token c) = true.

(** The token file holds valid credentials. *)
Definition usable (creds : option credentials) : Prop :=
  exists c, creds = Some c /\ valid c = true.

End Auth.

(** ** Sample data for the authentication *)

(** Credentials that have expired and can be refreshed, and a library
    that refreshes them. *)
Definition stale_credentials : Auth.credentials :=
  Auth.mk_credentials "ya29.old" false true (Some "1//refresh").

Definition fresh_credentials : Auth.credentials :=
  Auth.mk_credentials "ya29.new" true false (Some "1//refresh").

Definition sample_refresh (creds : Auth.credentials) : option Auth.credentials :=
  Some fresh_credentials.

Definition sample_build (creds : Auth.credentials) : option string :=
  if Auth.valid creds then Some (Auth.access_token creds) else None.

Definition stale_token_world : Auth.world :=
  Auth.mk_world (Some stale_credentials) [] [].

(** ** Sample data for the ingestion *)

(** An inbox of three messages served in two pages; bodies are taken as
    they come and no date parses. *)
Definition sample_mail : gmap string Fetch.message :=
  <["a" := Fetch.mk_message "a" [("From", "billing@acme.com"); ("SUBJECT", "Invoice")]
             (Some "Ym9keQ") None (Some ["INBOX"; "UNREAD"])]>
  (<["b" := Fetch.mk_message "b" [("Subject", "Hello")] None
              (Some [Fetch.mk_part (Some "eA")]) (Some ["INBOX"])]>
  (<["c" := Fetch.mk_message "c" [] None None (Some [])]> ∅)).

Definition sample_server : Fetch.server :=
  Fetch.mk_server [["a"; "b"]; ["c"]] sample_mail [] [].

Definition sample_fetch_world : Fetch.world :=
  Fetch.mk_world (Some sample_server) true ∅ [] [] false [].

Definition plain_body (data : string) : option string := Some data.
Definition no_date (date_str : string) : option datetime := None.
Definition sample_now : datetime := mk_datetime 2024 5 5 1 2 3 0 None.

(** The rows of the three sample messages, and a session whose second
    merge raises. *)
Definition sample_rows : list Email.t :=
  [Email.mk "a" "billing@acme.com" (Some EmptyString) (Some "Invoice") (Some "Ym9keQ")
            sample_now false;
   Email.mk "b" EmptyString (Some EmptyString) (Some "Hello") (Some "eA")
            sample_now true;
   Email.mk "c" EmptyString (Some EmptyString) (Some EmptyString) (Some EmptyString)
            sample_now true].

Definition faulty_session_world : Fetch.world :=
  Fetch.mk_world (Some sample_server) true ∅ [] [false; true] false [].

(** * The repository's tests, replayed

    The cases of [test_rules.py], run on the embedding. *)

Example test_condition_contains :
  _evaluate_condition iso_parse test_email
    (mk_condition "Subject" "Contains" (PStr "Test")) = Ok true.
Proof. reflexivity. Qed.

Example test_condition_does_not_contain :
  _evaluate_condition iso_parse test_email
    (mk_condition "Subject" "Does not Contain" (PStr "Newsletter")) = Ok true.
Proof. reflexivity. Qed.

Example test_condition_equals :
  _evaluate_condition iso_parse test_email
    (mk_condition "Subject" "Equals" (PStr "Test Subject")) = Ok true.
Proof. reflexivity. Qed.

Example test_date_comparison :
  _evaluate_condition iso_parse test_email
    (mk_condition "Received" "Greater Than" (PStr "2022-12-31T00:00:00Z")) = Ok true.
Proof. vm_compute. reflexivity. Qed.

Example test_all_predicate :
  _evaluate_rule_conditions iso_parse test_email
    (mk_rule_conditions "All"
       [mk_condition "Subject" "Contains" (PStr "Test");
        mk_condition "From" "Contains" (PStr "example.com")]) = Ok true.
Proof. reflexivity. Qed.

Example test_any_predicate :
  _evaluate_rule_conditions iso_parse test_email
    (mk_rule_conditions "Any"
       [mk_condition "Subject" "Contains" (PStr "NonExistent");
        mk_condition "From" "Contains" (PStr "example.com")]) = Ok true.
Proof. reflexivity. Qed.

Example test_mark_as_read_action :
  issued (world0 [])
    (fst (_apply_action "test123" (mk_action "mark_as_read" (Some ∅)) (world0 [])))
  = [(MessagesModify "test123" [] ["UNREAD"], Done)].
Proof. vm_compute. reflexivity. Qed.

Example test_move_message_action :
  issued (world0 []) (fst (_apply_action "test123" (move_to "Important") (world0 [])))
  = [(LabelsList, Done); (MessagesModify "test123" ["Label_1"] [], Done)].
Proof. vm_compute. reflexivity. Qed.

Example test_archive_message_action :
  issued (world0 [])
    (fst (_apply_action "test123" (mk_action "archive_message" (Some ∅)) (world0 [])))
  = [(MessagesModify "test123" [] ["INBOX"], Done)].
Proof. vm_compute. reflexivity. Qed.

(** The first end-to-end scenario of the description: a rule on the
    subject marks the invoice as read, remotely and in its row. *)
Example pass_marks_invoice_read :
  let rule := mk_rule "invoices"
                (mk_rule_conditions "All"
                   [mk_condition "Subject" "Contains" (PStr "Invoice")])
                [mk_action "mark_as_read" None] in
  let w := mk_world (Some (mk_gmail [] {["m1" := {["UNREAD"; "INBOX"]}]} 1 [] []))
                    inbox false [] in
  let w' := fst (process_emails iso_parse [rule] None w) in
  (Gmail.labels_of "m1" <$> gmail_service w') = Some {["INBOX"]}
  /\ (Email.is_read <$> table w' !! "m1") = Some true
  /\ (Email.is_read <$> table w' !! "m2") = Some false.
Proof. vm_compute. repeat split; reflexivity. Qed.

(** * Properties of the condition evaluator *)

Section EvaluatorFacts.

Variable parse : string -> option datetime.

Lemma resolve_field_unrecognized email field value :
  field ∉ recognized_fields -> resolve_field parse email field value = Ok None.
Proof.
  intros Hf. unfold resolve_field.
  repeat (case String.eqb_spec;
          [intros ->; exfalso; apply Hf; unfold recognized_fields; set_solver
          |intros _]).
  reflexivity.
Qed.

Lemma resolve_field_recognized email field value :
  field ∈ recognized_fields -> resolve_field parse email field value <> Ok None.
Proof.
  unfold recognized_fields. rewrite !elem_of_cons, elem_of_nil.
  intros [->|[->|[->|[->|[->|[]]]]]]; cbn; try discriminate.
  unfold dateutil_parse. destruct value; cbn; try discriminate.
  destruct (parse s); discriminate.
Qed.

(** What a date condition resolves to once its value has parsed. *)
Lemma resolve_field_received email s d :
  parse s = Some d ->
  resolve_field parse email "Received" (PStr s)
  = Ok (Some (PDatetime (DT.replace_tzinfo (Email.received email) (Some 0)),
              PDatetime d)).
Proof. intros Hp. cbn. rewrite Hp. reflexivity. Qed.

Lemma evaluate_condition_parse_failure email c s :
  c_field c = "Received" -> c_value c = PStr s -> parse s = None ->
  _evaluate_condition parse email c = Raise ParserError.
Proof.
  intros Hf Hv Hp. unfold _evaluate_condition. rewrite Hf, Hv. cbn.
  rewrite Hp. reflexivity.
Qed.

(** The ordering predicates on a date condition whose value parsed to
    an aware datetime: the comparison of the two instants. *)
Lemma evaluate_condition_received_aware email s d off :
  parse s = Some d -> tzinfo d = Some off ->
  let received := DT.utc_us (Email.received email) 0 in
  _evaluate_condition parse email (mk_condition "Received" "Less Than" (PStr s))
  = Ok (bool_decide (received < DT.utc_us d off))
  /\ _evaluate_condition parse email (mk_condition "Received" "Greater Than" (PStr s))
     = Ok (bool_decide (DT.utc_us d off < received)).
Proof.
  intros Hp Htz received. unfold _evaluate_condition. cbn [c_field c_value c_predicate].
  rewrite (resolve_field_received _ _ _ Hp). cbn.
  unfold DT.lt, DT.gt, DT.cmp. cbn [tzinfo DT.replace_tzinfo]. rewrite Htz.
  change (DT.utc_us (DT.replace_tzinfo (Email.received email) (Some 0)) 0)
    with received.
  split.
  - destruct (Z.compare_spec received (DT.utc_us d off));
      (rewrite bool_decide_eq_true_2 by lia) || (rewrite bool_decide_eq_false_2 by lia);
      reflexivity.
  - destruct (Z.compare_spec received (DT.utc_us d off));
      (rewrite bool_decide_eq_true_2 by lia) || (rewrite bool_decide_eq_false_2 by lia);
      reflexivity.
Qed.

(** The ordering predicates on a date condition whose value parsed to
    a naive datetime raise: the message side was made aware. *)
Lemma evaluate_condition_received_naive email s d predicate :
  parse s = Some d -> tzinfo d = None ->
  predicate = "Less Than" \/ predicate = "Greater Than" ->
  _evaluate_condition parse email (mk_condition "Received" predicate (PStr s))
  = Raise TypeError.
Proof.
  intros Hp Htz Hpred. unfold _evaluate_condition. cbn [c_field c_value c_predicate].
  rewrite (resolve_field_received _ _ _ Hp).
  destruct Hpred as [-> | ->]; cbn;
    unfold DT.lt, DT.gt, DT.cmp; cbn [tzinfo DT.replace_tzinfo];
    rewrite Htz; reflexivity.
Qed.

(** The ordering predicates on a field that is not the date: false. *)
Lemma evaluate_condition_ordering_text email field predicate value :
  field <> "Received" ->
  predicate = "Less Than" \/ predicate = "Greater Than" ->
  _evaluate_condition parse email (mk_condition field predicate value) = Ok false.
Proof.
  intros Hf Hpred. unfold _evaluate_condition, resolve_field.
  cbn [c_field c_value c_predicate].
  repeat (case String.eqb_spec; intros ?); subst; try congruence;
    try reflexivity;
    destruct Hpred as [-> | ->]; cbn;
    try (destruct (Email.to email)); try (destruct (Email.subject email));
    try (destruct (Email.body email)); reflexivity.
Qed.

(** C8.  A condition whose field selector is none of From, To, Subject,
    Message, Received evaluates to False, whatever its predicate and
    its value, and nothing is raised. *)
Theorem unrecognized_field_false email c :
  c_field c ∉ recognized_fields ->
  _evaluate_condition parse email c = Ok false.
Proof.
  intros Hf. unfold _evaluate_condition.
  rewrite resolve_field_unrecognized by exact Hf. reflexivity.
Qed.

(** C9.  On a message field, whenever the evaluator returns, Contains
    yields [b] exactly when Does not Contain yields the negation of
    [b] on the same field and value. *)
Theorem contains_negates_not_contains email field value b :
  field ∈ recognized_fields ->
  _evaluate_condition parse email (mk_condition field "Contains" value) = Ok b
  <-> _evaluate_condition parse email (mk_condition field "Does not Contain" value)
      = Ok (negb b).
Proof.
  intros Hf. unfold _evaluate_condition. cbn [c_field c_value c_predicate].
  pose proof (resolve_field_recognized email field value Hf) as Hres.
  destruct (resolve_field parse email field value) as [[[fv v]|]|e].
  - cbn. destruct (PyStr.contains _ _), b; cbn; split; congruence.
  - congruence.
  - split; discriminate.
Qed.

End EvaluatorFacts.

(** Witness: a condition on a Cc field. *)
Lemma unrecognized_field_false_witness :
  ("Cc" ∉ recognized_fields)
  /\ _evaluate_condition iso_parse test_email (mk_condition "Cc" "Contains" (PStr "test"))
     = Ok false.
Proof.
  split; [compute_done|].
  apply (unrecognized_field_false iso_parse test_email
           (mk_condition "Cc" "Contains" (PStr "test"))).
  compute_done.
Defined.

(** Witness: the subject of the
    sample message does contain "test". *)
Lemma contains_negates_not_contains_witness :
  ("Subject" ∈ recognized_fields)
  /\ (_evaluate_condition iso_parse test_email
        (mk_condition "Subject" "Contains" (PStr "TEST")) = Ok true
      <-> _evaluate_condition iso_parse test_email
            (mk_condition "Subject" "Does not Contain" (PStr "TEST")) = Ok false).
Proof.
  split; [compute_done|].
  apply (contains_negates_not_contains iso_parse test_email "Subject" (PStr "TEST") true).
  compute_done.
Defined.

(** * Properties of the rule matcher *)

Section MatcherFacts.

Context {A : Type} (f : A -> result bool).

(** The comprehension returns exactly when no element raises. *)
Lemma comprehension_returns l :
  (exists results, comprehension f l = Ok results)
  <-> Forall (fun x => exists b, f x = Ok b) l.
Proof.
  induction l as [|x l IH]; cbn.
  - split; [constructor | eauto].
  - rewrite Forall_cons, <- IH. destruct (f x) as [b|e].
    + destruct (comprehension f l) as [rs|e'].
      * split; eauto.
      * split; [intros [? [=]] | intros [_ [? [=]]]].
    + split; [intros [? [=]] | intros [[? [=]] _]].
Qed.

Lemma comprehension_all l :
  rbind (comprehension f l) (fun results => Ok (all results)) = Ok true
  <-> Forall (fun x => f x = Ok true) l.
Proof.
  induction l as [|x l IH]; cbn.
  - split; [constructor | reflexivity].
  - rewrite Forall_cons, <- IH. destruct (f x) as [[|]|e].
    + destruct (comprehension f l) as [rs|e']; cbn; [tauto|].
      split; [discriminate | intros [_ [=]]].
    + destruct (comprehension f l) as [rs|e']; cbn;
        (split; [discriminate | intros [[=] _]]).
    + split; [discriminate | intros [[=] _]].
Qed.

Lemma comprehension_any l :
  rbind (comprehension f l) (fun results => Ok (any results)) = Ok true
  <-> Exists (fun x => f x = Ok true) l /\ Forall (fun x => exists b, f x = Ok b) l.
Proof.
  induction l as [|x l IH]; cbn.
  - rewrite Exists_nil. split; [discriminate | tauto].
  - rewrite Exists_cons, Forall_cons.
    pose proof (comprehension_returns l) as Hret.
    destruct (f x) as [b|e].
    + destruct (comprehension f l) as [rs|e']; cbn in *.
      * assert (Forall (fun x => exists b, f x = Ok b) l) as Hl
          by (apply Hret; eauto).
        destruct b; cbn.
        -- split; [eauto 6 | reflexivity].
        -- rewrite IH. split.
           ++ intros [He _]. eauto 6.
           ++ intros [[[=]|He] _]. tauto.
      * split; [discriminate|]. intros [_ [_ Hl]].
        apply Hret in Hl as [? [=]].
    + split; [discriminate | intros [_ [[? [=]] _]]].
Qed.

End MatcherFacts.

Section MatcherTheorems.

Variable parse : string -> option datetime.

(** C3 (as the code has it).  Under All the matcher returns True
    exactly when every child condition evaluates to True, and True on
    an empty list.  Under Any it returns True exactly when some child
    evaluates to True and no child raises (every child is evaluated
    before the results are combined), and False on an empty list. *)
Theorem rule_conditions_all_any email conditions :
  (_evaluate_rule_conditions parse email (mk_rule_conditions "All" conditions) = Ok true
   <-> Forall (fun c => _evaluate_condition parse email c = Ok true) conditions)
  /\ (_evaluate_rule_conditions parse email (mk_rule_conditions "Any" conditions) = Ok true
      <-> Exists (fun c => _evaluate_condition parse email c = Ok true) conditions
          /\ Forall (fun c => exists b, _evaluate_condition parse email c = Ok b)
                    conditions)
  /\ _evaluate_rule_conditions parse email (mk_rule_conditions "All" []) = Ok true
  /\ _evaluate_rule_conditions parse email (mk_rule_conditions "Any" []) = Ok false.
Proof.
  repeat split; try reflexivity.
  - apply (comprehension_all (_evaluate_condition parse email)).
  - apply (comprehension_all (_evaluate_condition parse email)).
  - apply (comprehension_any (_evaluate_condition parse email)); assumption.
  - apply (comprehension_any (_evaluate_condition parse email)); assumption.
  - intros [He Hf]. apply (comprehension_any (_evaluate_condition parse email)).
    split; assumption.
Qed.

End MatcherTheorems.


(** C3, counterexample.  Under Any, the first child evaluates to True and
    yet the matcher does not return True: the second child raises. *)
Lemma any_true_child_not_enough :
  ~ (_evaluate_rule_conditions iso_parse test_email any_with_bad_date = Ok true
     <-> Exists (fun c => _evaluate_condition iso_parse test_email c = Ok true)
                (rc_rules any_with_bad_date)).
Proof.
  intros [_ H].
  assert (_evaluate_rule_conditions iso_parse test_email any_with_bad_date
          = Raise ParserError) as Hr by reflexivity.
  rewrite Hr in H. discriminate H.
  apply Exists_cons_hd. reflexivity.
Qed.

(** C4, at a date without a zone.  [dateutil] reads "2022-12-31" as a
    naive datetime, the received date was made aware, and Less Than
    raises TypeError instead of comparing. *)
Lemma less_than_naive_date_raises :
  iso_parse "2022-12-31" = Some (mk_datetime 2022 12 31 0 0 0 0 None)
  /\ _evaluate_condition iso_parse test_email
       (mk_condition "Received" "Less Than" (PStr "2022-12-31")) = Raise TypeError
  /\ _evaluate_condition iso_parse test_email
       (mk_condition "Received" "Greater Than" (PStr "2022-12-31")) = Raise TypeError.
Proof. repeat split; vm_compute; reflexivity. Qed.

(** * Properties of the action applicator *)

Lemma find_label_none label_name ls :
  Forall (fun l => PyStr.lower (l_name l) <> PyStr.lower label_name) ls ->
  find_label label_name ls = None.
Proof.
  unfold find_label. induction 1 as [|l ls Hl _ IH]; [reflexivity|].
  cbn. case String.eqb_spec; [contradiction | intros _; exact IH].
Qed.

(** The label [find_label] returns is a label of the list whose name
    equals the wanted one up to case. *)
Lemma find_label_some label_name ls l :
  find_label label_name ls = Some l ->
  l ∈ ls /\ PyStr.lower (l_name l) = PyStr.lower label_name.
Proof.
  unfold find_label. intros H. apply find_some in H as [Hin Heq].
  split; [apply list_elem_of_In; exact Hin | apply String.eqb_eq; exact Heq].
Qed.

Lemma find_label_exists label_name ls :
  Exists (fun l => PyStr.lower (l_name l) = PyStr.lower label_name) ls ->
  exists l, find_label label_name ls = Some l.
Proof.
  unfold find_label. induction 1 as [l ls Hl | l ls _ IH]; cbn.
  - rewrite Hl, String.eqb_refl. eauto.
  - destruct (String.eqb _ _); eauto.
Qed.

(** [_apply_action] never raises: whatever its body raises is handled
    by the final [except]. *)
Lemma apply_action_returns email_id action w :
  _apply_action email_id action w = (fst (_apply_action email_id action w), Ok tt).
Proof.
  unfold _apply_action, try_except.
  match goal with
  | |- context [match ?b w with _ => _ end] => destruct (b w) as [w' [[]|e]]
  end; reflexivity.
Qed.

(** A request of this application that failed left an ERROR line in
    the log. *)
Lemma apply_action_logs_failure email_id action w :
  let w' := fst (_apply_action email_id action w) in
  Exists (fun r => r.2 = Failed) (issued w w') ->
  Exists (fun ev => level_of ev = ERROR) (logged w w').
Proof.
  destruct w as [[g|] t c lg]; [|intros w' H; inversion H].
  destruct g as [ls ml nl rq fs].
  unfold _apply_action, try_except, mbind, M_bind, self_gmail_service.
  cbn [gmail_service].
  destruct (param action "label") as [label_name|e] eqn:Hp.
  all: repeat (case String.eqb_spec; intros ?).
  all: destruct fs as [|[] [|[] [|[] fs]]].
  all: cbn -[find_label].
  all: try (destruct (find_label _ _); cbn).
  all: try (destruct (t !! email_id); cbn).
  all: unfold issued, logged; cbn; rewrite <- ?app_assoc, ?drop_app_length, ?drop_all.
  all: intros H; repeat (apply Exists_cons in H as [H|H]; [try discriminate H|]);
       try (apply Exists_nil in H; contradiction).
  all: repeat (first [apply Exists_cons_hd; reflexivity | apply Exists_cons_tl]).
Qed.

(** C10.  An action whose type is none of the seven known ones issues no
    request (the service is left as it was), changes no row of the
    table and returns without raising; when the service is there,
    nothing at all changes. *)
Theorem unknown_action_noop email_id action w :
  a_type action ∉ action_types ->
  exists w',
    _apply_action email_id action w = (w', Ok tt)
    /\ gmail_service w' = gmail_service w
    /\ issued w w' = []
    /\ table w' = table w
    /\ (is_Some (gmail_service w) -> w' = w).
Proof.
  intros Hty. unfold _apply_action, try_except, mbind, M_bind, self_gmail_service.
  destruct (gmail_service w) as [g|] eqn:Hg.
  - repeat (case String.eqb_spec;
            [intros Heq; exfalso; apply Hty; rewrite Heq; unfold action_types; set_solver
            |intros _]).
    exists w. unfold issued. rewrite Hg, drop_all. auto.
  - eexists. split; [reflexivity|]. unfold issued. cbn. rewrite Hg.
    repeat split; try reflexivity. intros [? [=]].
Qed.

(** Witness: an action type of no meaning, on
    an account that answers. *)
Lemma unknown_action_noop_witness :
  ("forward" ∉ action_types)
  /\ exists w',
       _apply_action "m1" (mk_action "forward" None) (world0 []) = (w', Ok tt)
       /\ gmail_service w' = gmail_service (world0 [])
       /\ issued (world0 []) w' = []
       /\ table w' = table (world0 [])
       /\ (is_Some (gmail_service (world0 [])) -> w' = world0 []).
Proof.
  split; [compute_done|].
  apply (unknown_action_noop "m1" (mk_action "forward" None) (world0 [])).
  compute_done.
Defined.

(** C5.  Moving a message to a label.  With no label of that name up
    to case, and the listing and the creation answered, the applicator
    lists the labels, creates the label once and attaches the new label
    once, in that order.  With such a label, and the listing answered,
    it lists the labels and attaches the first matching label once, by
    its id, creating nothing. *)
Theorem move_to_label_requests email_id action label_name w g :
  a_type action = "move_message" ->
  param action "label" = Ok label_name ->
  gmail_service w = Some g ->
  let w' := fst (_apply_action email_id action w) in
  (Forall (fun l => PyStr.lower (l_name l) <> PyStr.lower label_name) (labels g) ->
   fails_at 0 g = false -> fails_at 1 g = false ->
   exists g' new_label attached,
     gmail_service w' = Some g'
     /\ labels g' = (labels g ++ [new_label])%list
     /\ l_name new_label = label_name
     /\ issued w w' = [(LabelsList, Done); (LabelsCreate label_name, Done);
                       (MessagesModify email_id [l_id new_label] [], attached)])
  /\ (Exists (fun l => PyStr.lower (l_name l) = PyStr.lower label_name) (labels g) ->
      fails_at 0 g = false ->
      exists l attached,
        find_label label_name (labels g) = Some l
        /\ l ∈ labels g
        /\ PyStr.lower (l_name l) = PyStr.lower label_name
        /\ issued w w' = [(LabelsList, Done);
                          (MessagesModify email_id [l_id l] [], attached)]).
Proof.
  intros Hty Hparam Hg w'. subst w'.
  destruct w as [s t c lg]. cbn in Hg. subst s.
  destruct g as [ls ml nl rq fs]. unfold fails_at, issued.
  cbn [faults labels gmail_service requests].
  unfold _apply_action, try_except, mbind, M_bind, self_gmail_service.
  rewrite Hty, Hparam.
  split.
  - intros Hnone H0 H1.
    destruct fs as [|b1 [|b2 [|[] fs]]]; cbn in H0, H1; subst;
      cbn -[find_label]; rewrite (find_label_none _ _ Hnone); cbn;
      rewrite <- ?app_assoc, drop_app_length;
      eexists; exists (mk_label ("Label_" ++ PyStr.of_int (Z.of_nat nl)) label_name);
      eexists; repeat split.
  - intros Hex H0.
    destruct (find_label_exists _ _ Hex) as [l Hl]. exists l.
    destruct (find_label_some _ _ _ Hl) as [Hin Hname].
    destruct fs as [|b1 [|[] fs]]; cbn in H0; subst;
      cbn -[find_label]; rewrite Hl; cbn;
      rewrite <- ?app_assoc, drop_app_length; eexists; repeat split; assumption.
Qed.

Lemma param_move_to label_name : param (move_to label_name) "label" = Ok label_name.
Proof. unfold param, move_to. cbn. rewrite lookup_singleton_eq. reflexivity. Qed.

(** Witness: the sample account has the label Important and no label
    Receipts. *)
Lemma move_to_label_requests_witness :
  (exists g' new_label attached,
     gmail_service (fst (_apply_action "m1" (move_to "Receipts") (world0 []))) = Some g'
     /\ labels g' = (labels (account []) ++ [new_label])%list
     /\ l_name new_label = "Receipts"
     /\ issued (world0 []) (fst (_apply_action "m1" (move_to "Receipts") (world0 [])))
        = [(LabelsList, Done); (LabelsCreate "Receipts", Done);
           (MessagesModify "m1" [l_id new_label] [], attached)])
  /\ (exists l attached,
       find_label "IMPORTANT" (labels (account [])) = Some l
       /\ l ∈ labels (account [])
       /\ PyStr.lower (l_name l) = PyStr.lower "IMPORTANT"
       /\ issued (world0 []) (fst (_apply_action "m1" (move_to "IMPORTANT") (world0 [])))
          = [(LabelsList, Done); (MessagesModify "m1" [l_id l] [], attached)]).
Proof.
  split.
  - apply (move_to_label_requests "m1" (move_to "Receipts") "Receipts"
             (world0 []) (account []) eq_refl (param_move_to "Receipts") eq_refl).
    + repeat constructor; compute_done.
    + reflexivity.
    + reflexivity.
  - apply (move_to_label_requests "m1" (move_to "IMPORTANT") "IMPORTANT"
             (world0 []) (account []) eq_refl (param_move_to "IMPORTANT") eq_refl).
    + apply Exists_cons_hd. reflexivity.
    + reflexivity.
Defined.

(** C6.  On a message that has a row in the table, mark_as_read
    followed by mark_as_unread, the request of the latter being
    answered, leaves the UNREAD label on the message and [is_read] False
    in the row. *)
Theorem mark_read_then_unread email_id read unread e w g :
  a_type read = "mark_as_read" -> a_type unread = "mark_as_unread" ->
  gmail_service w = Some g -> table w !! email_id = Some e ->
  fails_at 1 g = false ->
  let w' := fst (for_actions email_id [read; unread] w) in
  (exists g', gmail_service w' = Some g' /\ "UNREAD" ∈ Gmail.labels_of email_id g')
  /\ Email.is_read <$> table w' !! email_id = Some false.
Proof.
  intros Hr Hu Hg He Hh w'. subst w'.
  destruct w as [s t c lg]. cbn in Hg, He. subst s.
  destruct g as [ls ml nl rq fs]. unfold fails_at in Hh. cbn [faults] in Hh.
  cbn [for_actions]. unfold _apply_action, try_except, mbind, M_bind, self_gmail_service.
  rewrite Hr, Hu.
  destruct fs as [|[] [|b2 fs]]; cbn in Hh; subst; cbn; rewrite He; cbn;
    rewrite ?lookup_alter_eq, ?He; cbn.
  all: split; [eexists; split; [reflexivity|]
              |rewrite ?lookup_alter_eq, ?He; reflexivity].
  all: unfold Gmail.labels_of at 1; cbn; rewrite lookup_insert_eq; cbn; set_solver.
Qed.

(** Witness: the invoice of the sample inbox. *)
Lemma mark_read_then_unread_witness :
  let w' := fst (for_actions "m1" [mk_action "mark_as_read" None;
                                    mk_action "mark_as_unread" None] (world0 [])) in
  (exists g', gmail_service w' = Some g' /\ "UNREAD" ∈ Gmail.labels_of "m1" g')
  /\ Email.is_read <$> table w' !! "m1" = Some false.
Proof.
  apply (mark_read_then_unread "m1" (mk_action "mark_as_read" None)
           (mk_action "mark_as_unread" None) invoice (world0 []) (account []));
    reflexivity.
Defined.

(** * Properties of the engine pass *)

Lemma run_steps_app s1 s2 w : run_steps (s1 ++ s2) w = run_steps s2 (run_steps s1 w).
Proof. unfold run_steps. apply fold_left_app. Qed.

Section EngineFacts.

Variable parse : string -> option datetime.
Variable rules : list Rule.

Lemma for_actions_steps email_id actions w :
  for_actions email_id actions w
  = (run_steps (map (Apply email_id) actions) w, Ok tt).
Proof.
  revert w. induction actions as [|a actions IH]; intros w; [reflexivity|].
  cbn [for_actions map]. unfold mbind, M_bind.
  rewrite apply_action_returns, IH. reflexivity.
Qed.

Lemma for_rules_steps email rs w :
  rules_return parse rs email ->
  for_rules parse email rs w = (run_steps (flat_map (rule_steps parse email) rs) w, Ok tt).
Proof.
  intros Hrs. revert w. induction Hrs as [|rule rs [b Hb] _ IH]; intros w;
    [reflexivity|].
  cbn [for_rules flat_map]. rewrite run_steps_app.
  unfold rule_steps, matches, mbind, M_bind, lift. rewrite Hb.
  destruct b.
  - unfold logger at 1. cbn [fst]. rewrite for_actions_steps, IH. reflexivity.
  - unfold mret, M_ret. rewrite IH. reflexivity.
Qed.

(** A rule whose matcher raises ends the walk over the rules: the
    rules before it have had their effect, the rules after it are not
    looked at. *)
Lemma for_rules_aborts email before rule after e w :
  rules_return parse before email ->
  _evaluate_rule_conditions parse email (r_conditions rule) = Raise e ->
  for_rules parse email (before ++ rule :: after) w
  = (run_steps (flat_map (rule_steps parse email) before) w, Raise e).
Proof.
  intros Hb He. revert w. induction Hb as [|r rs [b Hr] _ IH]; intros w.
  - cbn. unfold mbind, M_bind, lift. rewrite He. reflexivity.
  - cbn [app for_rules flat_map]. rewrite run_steps_app.
    unfold rule_steps, matches, mbind, M_bind, lift. rewrite Hr.
    destruct b.
    + unfold logger at 1. cbn [fst]. rewrite for_actions_steps, IH. reflexivity.
    + unfold mret, M_ret. rewrite IH. reflexivity.
Qed.

Lemma progress_steps_run n w :
  (if (n mod 10 =? 0)%nat then logger (Progress n) else mret tt) w
  = (run_steps (progress_steps n) w, Ok tt).
Proof. unfold progress_steps. destruct (n mod 10 =? 0)%nat; reflexivity. Qed.

Lemma for_emails_steps emails processed_count w :
  matcher_returns parse rules emails ->
  for_emails parse rules emails processed_count w
  = (run_steps (pass_steps parse rules processed_count emails) w,
     Ok (processed_count + length emails)%nat).
Proof.
  intros Hm. revert processed_count w.
  induction Hm as [|email emails Hemail _ IH]; intros processed_count w.
  - cbn. unfold mret, M_ret. do 2 f_equal. lia.
  - cbn [for_emails pass_steps length]. rewrite !run_steps_app.
    unfold mbind, M_bind. rewrite (for_rules_steps email rules w Hemail).
    rewrite progress_steps_run, IH. do 2 f_equal. lia.
Qed.

(** A matcher that raises ends the walk over the messages as well. *)
Lemma for_emails_aborts done email todo (before after : list Rule) rule e processed_count w :
  rules = (before ++ rule :: after)%list ->
  matcher_returns parse rules done ->
  rules_return parse before email ->
  _evaluate_rule_conditions parse email (r_conditions rule) = Raise e ->
  for_emails parse rules (done ++ email :: todo) processed_count w
  = (run_steps (pass_steps parse rules processed_count done
                ++ flat_map (rule_steps parse email) before) w,
     Raise e).
Proof.
  intros Hrules Hm Hb He. revert processed_count w.
  induction Hm as [|email' emails Hemail _ IH]; intros processed_count w.
  - cbn [app for_emails pass_steps]. unfold mbind, M_bind.
    rewrite Hrules at 1. rewrite (for_rules_aborts email before rule after e w Hb He).
    reflexivity.
  - cbn [app for_emails pass_steps]. rewrite <- !app_assoc, !run_steps_app.
    unfold mbind, M_bind. rewrite (for_rules_steps email' rules w Hemail).
    rewrite progress_steps_run, IH, run_steps_app. reflexivity.
Qed.

(** A pass in which every matcher returns runs to its end. *)
Lemma process_emails_completes limit w :
  let emails := query_all limit (table w) in
  matcher_returns parse rules emails ->
  process_emails parse rules limit w
  = (fst (session_close
       (run_steps ([Emit (opening limit rules); Emit (Found (length emails))]
                   ++ pass_steps parse rules 0 emails
                   ++ [Emit (Completed (length emails))]) w)),
     Ok tt).
Proof.
  intros emails Hm. unfold process_emails, try_finally, try_except.
  unfold mbind, M_bind.
  assert ((match limit with
           | Some n => logger (ProcessingRecent n (length rules))
           | None => logger (ProcessingAll (length rules))
           end) w = (run_step w (Emit (opening limit rules)), Ok tt)) as ->
    by (destruct limit; reflexivity).
  cbn [run_step logger fst table]. fold emails.
  unfold logger at 2. rewrite (for_emails_steps emails 0 _ Hm).
  rewrite !run_steps_app. reflexivity.
Qed.

(** A pass in which a matcher raises stops there: the handler of
    [process_emails] logs the exception and the session is closed. *)
Lemma process_emails_aborts limit w done email todo (before after : list Rule) rule e :
  query_all limit (table w) = (done ++ email :: todo)%list ->
  rules = (before ++ rule :: after)%list ->
  matcher_returns parse rules done ->
  rules_return parse before email ->
  _evaluate_rule_conditions parse email (r_conditions rule) = Raise e ->
  process_emails parse rules limit w
  = (fst (session_close
       (run_steps ([Emit (opening limit rules);
                    Emit (Found (length (done ++ email :: todo)))]
                   ++ pass_steps parse rules 0 done
                   ++ flat_map (rule_steps parse email) before
                   ++ [Emit (ProcessingError e)]) w)),
     Ok tt).
Proof.
  intros Hq Hrules Hm Hb He. unfold process_emails, try_finally, try_except.
  unfold mbind, M_bind.
  assert ((match limit with
           | Some n => logger (ProcessingRecent n (length rules))
           | None => logger (ProcessingAll (length rules))
           end) w = (run_step w (Emit (opening limit rules)), Ok tt)) as ->
    by (destruct limit; reflexivity).
  cbn [run_step logger fst table]. rewrite Hq.
  unfold logger at 2.
  rewrite (for_emails_aborts done email todo before after rule e 0 _ Hrules Hm Hb He).
  rewrite !run_steps_app. reflexivity.
Qed.

(** Which steps a pass makes, and whether it is cut short, is decided by
    the rules and the rows alone: the state of the service, the answers
    it gives and the log have no part in it. *)
Lemma for_rules_plan email rs :
  exists steps r, forall w, for_rules parse email rs w = (run_steps steps w, r).
Proof.
  induction rs as [|rule rs (steps & r & IH)].
  - exists [], (Ok tt). reflexivity.
  - destruct (_evaluate_rule_conditions parse email (r_conditions rule)) as [b|e] eqn:Hb.
    + exists ((if b then Emit (RuleMatched (r_name rule) (Email.id email))
                        :: map (Apply (Email.id email)) (r_actions rule)
               else []) ++ steps)%list, r.
      intros w. cbn [for_rules]. rewrite run_steps_app.
      unfold mbind, M_bind, lift. rewrite Hb. destruct b.
      * unfold logger at 1. cbn [fst]. rewrite for_actions_steps, IH. reflexivity.
      * unfold mret, M_ret. rewrite IH. reflexivity.
    + exists [], (Raise e). intros w. cbn [for_rules].
      unfold mbind, M_bind, lift. rewrite Hb. reflexivity.
Qed.

Lemma for_emails_plan emails processed_count :
  exists steps r, forall w,
    for_emails parse rules emails processed_count w = (run_steps steps w, r).
Proof.
  revert processed_count. induction emails as [|email emails IH]; intros processed_count.
  - exists [], (Ok processed_count). reflexivity.
  - destruct (for_rules_plan email rules) as (steps1 & [[]|e] & H1).
    + destruct (IH (S processed_count)) as (steps2 & r & H2).
      exists (steps1 ++ progress_steps (S processed_count) ++ steps2)%list, r.
      intros w. cbn [for_emails]. rewrite !run_steps_app.
      unfold mbind, M_bind. rewrite H1, progress_steps_run, H2. reflexivity.
    + exists steps1, (Raise e). intros w. cbn [for_emails].
      unfold mbind, M_bind. rewrite H1. reflexivity.
Qed.

Lemma process_emails_plan limit rows :
  exists steps, forall w,
    table w = rows ->
    process_emails parse rules limit w = (fst (session_close (run_steps steps w)), Ok tt).
Proof.
  destruct (for_emails_plan (query_all limit rows) 0) as (steps & r & Hloop).
  exists ([Emit (opening limit rules); Emit (Found (length (query_all limit rows)))]
          ++ steps
          ++ [Emit match r with
                   | Ok processed_count => Completed processed_count
                   | Raise e => ProcessingError e
                   end])%list.
  intros w <-. unfold process_emails, try_finally, try_except.
  unfold mbind, M_bind.
  assert ((match limit with
           | Some n => logger (ProcessingRecent n (length rules))
           | None => logger (ProcessingAll (length rules))
           end) w = (run_step w (Emit (opening limit rules)), Ok tt)) as ->
    by (destruct limit; reflexivity).
  cbn [run_step logger fst table]. unfold logger at 2. rewrite Hloop.
  rewrite !run_steps_app. destruct r; reflexivity.
Qed.

End EngineFacts.

(** ** The order of the query *)

#[global] Instance received_desc_transitive : Transitive received_desc.
Proof. unfold received_desc. intros a b c Hab Hbc. lia. Qed.

#[global] Instance received_desc_total : Total received_desc.
Proof. unfold received_desc. intros a b. lia. Qed.

(** The messages of a pass come latest first. *)
Lemma query_all_sorted limit rows : StronglySorted received_desc (query_all limit rows).
Proof.
  unfold query_all.
  pose proof (StronglySorted_merge_sort received_desc (snd <$> map_to_list rows)) as Hs.
  destruct limit as [n|]; [|exact Hs].
  rewrite <- (take_drop n (merge_sort _ _)) in Hs.
  apply StronglySorted_app_1_l in Hs. exact Hs.
Qed.

(** Without a limit, the messages of a pass are the rows of the table. *)
Lemma query_all_rows rows : query_all None rows ≡ₚ snd <$> map_to_list rows.
Proof. unfold query_all. apply merge_sort_Permutation. Qed.

Lemma query_all_limit n rows : query_all (Some n) rows = take n (query_all None rows).
Proof. reflexivity. Qed.

(** ** A matcher that raises *)

Lemma rule_conditions_raise parse email rc c e0 :
  c ∈ rc_rules rc -> _evaluate_condition parse email c = Raise e0 ->
  exists e, _evaluate_rule_conditions parse email rc = Raise e.
Proof.
  intros Hin Hc. unfold _evaluate_rule_conditions.
  destruct (comprehension (_evaluate_condition parse email) (rc_rules rc))
    as [results|e] eqn:Hcomp; [|eauto].
  assert (Forall (fun c => exists b, _evaluate_condition parse email c = Ok b)
                 (rc_rules rc)) as Hall
    by (apply comprehension_returns; eauto).
  rewrite Forall_forall in Hall. destruct (Hall c Hin) as [b Hb]. congruence.
Qed.

(** C1 (as the code has it).  A date condition whose value does not
    parse yields no verdict: the evaluator raises ParserError, the
    matcher of any rule holding the condition raises, and a pass that
    reaches such a rule ends there: the handler of [process_emails] logs
    the exception and the session is closed, the rules after it and the
    messages after the current one being left unprocessed. *)
Theorem parse_failure_aborts_pass parse email c s :
  c_field c = "Received" -> c_value c = PStr s -> parse s = None ->
  _evaluate_condition parse email c = Raise ParserError
  /\ (forall rc, c ∈ rc_rules rc ->
      exists e, _evaluate_rule_conditions parse email rc = Raise e)
  /\ (forall rules limit w done todo (before after : list Rule) rule,
      query_all limit (table w) = (done ++ email :: todo)%list ->
      rules = (before ++ rule :: after)%list ->
      matcher_returns parse rules done ->
      rules_return parse before email ->
      c ∈ rc_rules (r_conditions rule) ->
      exists e,
        process_emails parse rules limit w
        = (fst (session_close
             (run_steps ([Emit (opening limit rules);
                          Emit (Found (length (done ++ email :: todo)))]
                         ++ pass_steps parse rules 0 done
                         ++ flat_map (rule_steps parse email) before
                         ++ [Emit (ProcessingError e)]) w)),
           Ok tt)).
Proof.
  intros Hf Hv Hp.
  pose proof (evaluate_condition_parse_failure parse email c s Hf Hv Hp) as Hc.
  split; [exact Hc|]. split.
  - intros rc Hin. exact (rule_conditions_raise parse email rc c _ Hin Hc).
  - intros rules limit w done todo before after rule Hq Hrules Hdone Hbefore Hin.
    destruct (rule_conditions_raise parse email (r_conditions rule) c _ Hin Hc)
      as [e He].
    exists e.
    exact (process_emails_aborts parse rules limit w done email todo before after
             rule e Hq Hrules Hdone Hbefore He).
Qed.

(** Witness: a rule with an unparsable
    date between two rules that match every message.  The pass stars
    the latest message and stops; nothing is archived and the other
    message is not looked at. *)
Lemma parse_failure_aborts_pass_witness :
  iso_parse "not a date" = None
  /\ process_emails iso_parse [star_all; trash_old; archive_all] None (world0 [])
     = (fst (session_close
          (run_steps [Emit (ProcessingAll 3); Emit (Found 2);
                      Emit (RuleMatched "star everything" "m2");
                      Apply "m2" (mk_action "add_star" None);
                      Emit (ProcessingError ParserError)] (world0 []))),
        Ok tt).
Proof.
  split; [reflexivity|].
  destruct (parse_failure_aborts_pass iso_parse newsletter bad_date "not a date"
              eq_refl eq_refl eq_refl) as (_ & _ & Hpass).
  destruct (Hpass [star_all; trash_old; archive_all] None (world0 [])
              [] [invoice] [star_all] [archive_all] trash_old) as [e He].
  - vm_compute. reflexivity.
  - reflexivity.
  - constructor.
  - repeat constructor. exists true. reflexivity.
  - cbn. set_solver.
  - vm_compute. reflexivity.
Defined.

(** C1, counterexample.  On the sample inbox the unparsable date does
    not evaluate to False; the pass logs the exception and stops, so
    that the rule after it, which matches every message, is applied to
    none, and the second message is never reached.  Had the condition
    been False, both messages would have been archived. *)
Lemma bad_date_aborts_pass :
  iso_parse "not a date" = None
  /\ _evaluate_condition iso_parse newsletter bad_date <> Ok false
  /\ (let w' := fst (process_emails iso_parse [trash_old; archive_all] None (world0 [])) in
      log w' = [ProcessingAll 2; Found 2; ProcessingError ParserError]
      /\ issued (world0 []) w' = [])
  /\ (let w' := fst (process_emails iso_parse [archive_all] None (world0 [])) in
      issued (world0 []) w'
      = [(MessagesModify "m2" [] ["INBOX"], Done);
         (MessagesModify "m1" [] ["INBOX"], Done)]).
Proof.
  split; [reflexivity|]. split; [discriminate|]. split.
  - vm_compute. split; reflexivity.
  - vm_compute. reflexivity.
Qed.

(** C2 (as the code has it).  In a pass in which no matcher raises, the
    messages are walked latest first (all the rows without a limit, the
    first [limit] of them otherwise); for each message every rule is
    evaluated in file order and the actions of each matching rule are
    applied in order before the next rule is looked at, whether or not
    an earlier rule matched. *)
Theorem pass_walks_all_rules_in_order parse rules limit w :
  let emails := query_all limit (table w) in
  matcher_returns parse rules emails ->
  StronglySorted received_desc emails
  /\ match limit with
     | None => emails ≡ₚ snd <$> map_to_list (table w)
     | Some n => emails = take n (query_all None (table w))
     end
  /\ process_emails parse rules limit w
     = (fst (session_close
          (run_steps ([Emit (opening limit rules); Emit (Found (length emails))]
                      ++ pass_steps parse rules 0 emails
                      ++ [Emit (Completed (length emails))]) w)),
        Ok tt).
Proof.
  intros emails Hm. split; [apply query_all_sorted|]. split.
  - destruct limit; [apply query_all_limit | apply query_all_rows].
  - exact (process_emails_completes parse rules limit w Hm).
Qed.

(** Witness: two rules that both
    match every message; each message gets the actions of both, in rule
    order, the later message first. *)
Lemma pass_walks_all_rules_in_order_witness :
  matcher_returns iso_parse [star_all; archive_all] (query_all None inbox)
  /\ issued (world0 [])
       (fst (process_emails iso_parse [star_all; archive_all] None (world0 [])))
     = [(MessagesModify "m2" ["STARRED"] [], Done);
        (MessagesModify "m2" [] ["INBOX"], Done);
        (MessagesModify "m1" ["STARRED"] [], Done);
        (MessagesModify "m1" [] ["INBOX"], Done)].
Proof.
  assert (matcher_returns iso_parse [star_all; archive_all] (query_all None inbox)) as Hm.
  { assert (query_all None inbox = [newsletter; invoice]) as -> by (vm_compute; reflexivity).
    repeat constructor; exists true; reflexivity. }
  split; [exact Hm|].
  destruct (pass_walks_all_rules_in_order iso_parse [star_all; archive_all] None
              (world0 []) Hm) as (_ & _ & Hpass).
  rewrite Hpass. vm_compute. reflexivity.
Defined.

(** C2, counterexample.  The latest message matches the first and the
    third rule; the second rule raises on it.  The pass applies the
    first rule's action only: the third rule's action is never applied
    and the other message is not walked. *)
Lemma matching_rule_after_raising_rule_skipped :
  matches iso_parse newsletter star_all = true
  /\ matches iso_parse newsletter archive_all = true
  /\ issued (world0 [])
       (fst (process_emails iso_parse [star_all; trash_old; archive_all] None (world0 [])))
     = [(MessagesModify "m2" ["STARRED"] [], Done)].
Proof. repeat split; vm_compute; reflexivity. Qed.

(** C7.  Applying an action never raises, and a request that failed
    while it was applied left an ERROR line in the log.  Hence every
    action of a rule is applied whatever became of the ones before it,
    and the steps of a pass are the same whatever the service answers:
    a failure cuts nothing short. *)
Theorem remote_failure_contained email_id action w :
  (exists w',
     _apply_action email_id action w = (w', Ok tt)
     /\ (Exists (fun r => r.2 = Failed) (issued w w') ->
         Exists (fun ev => level_of ev = ERROR) (logged w w')))
  /\ (forall actions,
      for_actions email_id actions w
      = (run_steps (map (Apply email_id) actions) w, Ok tt))
  /\ (forall parse rules limit,
      exists steps, forall v,
        table v = table w ->
        process_emails parse rules limit v
        = (fst (session_close (run_steps steps v)), Ok tt))
  /\ (forall parse rules limit,
      let emails := query_all limit (table w) in
      matcher_returns parse rules emails ->
      process_emails parse rules limit w
      = (fst (session_close
           (run_steps ([Emit (opening limit rules); Emit (Found (length emails))]
                       ++ pass_steps parse rules 0 emails
                       ++ [Emit (Completed (length emails))]) w)),
         Ok tt)).
Proof.
  split; [|split; [|split]].
  - exists (fst (_apply_action email_id action w)).
    split; [apply apply_action_returns | apply apply_action_logs_failure].
  - intros actions. apply for_actions_steps.
  - intros parse rules limit. apply process_emails_plan.
  - intros parse rules limit emails Hm.
    exact (process_emails_completes parse rules limit w Hm).
Qed.

(** Witness: the first request of the
    pass fails.  The failure is logged, and the pass goes on with the
    next action of the rule, the next rule and the next message. *)
Lemma remote_failure_contained_witness :
  matcher_returns iso_parse [star_all; archive_all] (query_all None inbox)
  /\ (let w' := fst (process_emails iso_parse [star_all; archive_all] None
                       (world0 [true])) in
      issued (world0 [true]) w'
      = [(MessagesModify "m2" ["STARRED"] [], Failed);
         (MessagesModify "m2" [] ["INBOX"], Done);
         (MessagesModify "m1" ["STARRED"] [], Done);
         (MessagesModify "m1" [] ["INBOX"], Done)]
      /\ log w'
         = [ProcessingAll 2; Found 2;
            RuleMatched "star everything" "m2"; ActionError "add_star" "m2" HttpError;
            RuleMatched "archive everything" "m2"; Archived "m2";
            RuleMatched "star everything" "m1"; Starred "m1";
            RuleMatched "archive everything" "m1"; Archived "m1";
            Completed 2]).
Proof.
  assert (matcher_returns iso_parse [star_all; archive_all] (query_all None inbox)) as Hm.
  { assert (query_all None inbox = [newsletter; invoice]) as -> by (vm_compute; reflexivity).
    repeat constructor; exists true; reflexivity. }
  split; [exact Hm|].
  destruct (remote_failure_contained "m2" (mk_action "add_star" None) (world0 [true]))
    as (_ & _ & _ & Hpass).
  rewrite (Hpass iso_parse [star_all; archive_all] None Hm).
  vm_compute. split; reflexivity.
Defined.

(** * Further properties of the condition evaluator *)

Lemma prefix_app needle hay :
  String.prefix needle hay = true <-> exists post, hay = needle ++ post.
Proof.
  revert hay. induction needle as [|c needle IH]; intros [|d hay]; cbn.
  - split; [intros _; exists EmptyString; reflexivity | reflexivity].
  - split; [intros _; exists (String d hay); reflexivity | reflexivity].
  - split; [discriminate|]. intros [post Hp].
    change (EmptyString = String c (needle ++ post)) in Hp. discriminate Hp.
  - destruct (Ascii.ascii_dec c d) as [->|Hne].
    + rewrite IH. split; intros [post Hp]; exists post.
      * rewrite Hp. reflexivity.
      * change (String d hay = String d (needle ++ post)) in Hp.
        injection Hp as Hp. exact Hp.
    + split; [discriminate|]. intros [post Hp].
      change (String d hay = String c (needle ++ post)) in Hp.
      injection Hp as Hc _. congruence.
Qed.

(** [needle in hay] holds exactly when [hay] has [needle] as a slice. *)
Lemma contains_slice needle hay :
  PyStr.contains needle hay = true <-> exists pre post, hay = pre ++ needle ++ post.
Proof.
  induction hay as [|c hay IH].
  - change (PyStr.contains needle EmptyString)
      with (String.prefix needle EmptyString || false).
    rewrite orb_false_r, prefix_app. split.
    + intros [post Hp]. exists EmptyString, post. exact Hp.
    + intros [[|d pre] [post Hp]]; [eauto|].
      change (EmptyString = String d (pre ++ needle ++ post)) in Hp. discriminate Hp.
  - change (PyStr.contains needle (String c hay))
      with (String.prefix needle (String c hay) || PyStr.contains needle hay).
    rewrite orb_true_iff, prefix_app, IH. split.
    + intros [[post Hp] | [pre [post Hp]]].
      * exists EmptyString, post. exact Hp.
      * exists (String c pre), post. rewrite Hp. reflexivity.
    + intros [[|d pre] [post Hp]].
      * left. exists post. exact Hp.
      * right. change (String c hay = String d (pre ++ needle ++ post)) in Hp.
        injection Hp as _ Hp. eauto.
Qed.

Section MoreEvaluatorFacts.

Variable parse : string -> option datetime.

Lemma resolve_field_text email field value :
  field ∈ text_fields ->
  resolve_field parse email field value = Ok (Some (text_column email field, value)).
Proof.
  unfold text_fields. rewrite !elem_of_cons, elem_of_nil.
  intros [->|[->|[->|[->|[]]]]]; reflexivity.
Qed.

Lemma text_column_not_datetime email field :
  Py.is_datetime (text_column email field) = false.
Proof.
  unfold text_column, column.
  destruct (Email.to email), (Email.subject email), (Email.body email);
    repeat (destruct (String.eqb _ _)); reflexivity.
Qed.

(** X1.  On a text column, Contains holds exactly when the lowered
    comparison text is a slice of the lowered column text. *)
Theorem contains_is_lowered_slice email field value :
  field ∈ text_fields ->
  _evaluate_condition parse email (mk_condition field "Contains" value) = Ok true
  <-> exists pre post,
        PyStr.lower (Py.str (text_column email field))
        = pre ++ PyStr.lower (Py.str value) ++ post.
Proof.
  intros Hf. unfold _evaluate_condition. cbn [c_field c_value c_predicate].
  rewrite (resolve_field_text _ _ _ Hf). cbn. rewrite <- contains_slice.
  split; [intros [= ->]; reflexivity | intros ->; reflexivity].
Qed.

(** X2.  On a text column the verdict of every predicate depends on the
    comparison text only up to case. *)
Theorem verdict_ignores_case_of_value email field predicate v v' :
  field ∈ text_fields ->
  PyStr.lower v = PyStr.lower v' ->
  _evaluate_condition parse email (mk_condition field predicate (PStr v))
  = _evaluate_condition parse email (mk_condition field predicate (PStr v')).
Proof.
  intros Hf Hlow. unfold _evaluate_condition. cbn [c_field c_value c_predicate].
  rewrite !(resolve_field_text _ _ _ Hf). unfold apply_predicate.
  rewrite (text_column_not_datetime email field), !andb_false_r.
  cbn [Py.str]. rewrite Hlow.
  destruct (text_column email field); cbn; rewrite ?Hlow; reflexivity.
Qed.

Lemma not_equals_negates fv v :
  exists x, apply_predicate "Equals" fv v = Ok x
            /\ apply_predicate "Does not Equal" fv v = Ok (negb x).
Proof. destruct fv, v; cbn; eauto. Qed.

(** X3.  Equals and Does not Equal are each other's negation on every
    message field, whenever the evaluator returns. *)
Theorem equals_negates_not_equals email field value b :
  field ∈ recognized_fields ->
  _evaluate_condition parse email (mk_condition field "Equals" value) = Ok b
  <-> _evaluate_condition parse email (mk_condition field "Does not Equal" value)
      = Ok (negb b).
Proof.
  intros Hf. unfold _evaluate_condition. cbn [c_field c_value c_predicate].
  pose proof (resolve_field_recognized parse email field value Hf) as Hres.
  destruct (resolve_field parse email field value) as [[[fv v]|]|e].
  - destruct (not_equals_negates fv v) as (x & -> & ->).
    destruct x, b; cbn; split; congruence.
  - congruence.
  - split; discriminate.
Qed.

(** X4.  A column that holds NULL reads as the text None: Contains
    looks for the comparison text in "none", and Equals holds for the
    JSON null only. *)
Theorem null_column_reads_none email field value :
  field ∈ text_fields -> text_column email field = PNone ->
  _evaluate_condition parse email (mk_condition field "Contains" value)
  = Ok (PyStr.contains (PyStr.lower (Py.str value)) "none")
  /\ _evaluate_condition parse email (mk_condition field "Equals" value)
     = Ok (match value with PNone => true | _ => false end).
Proof.
  intros Hf Hnull. unfold _evaluate_condition. cbn [c_field c_value c_predicate].
  rewrite !(resolve_field_text _ _ _ Hf), Hnull. split; [reflexivity|].
  destruct value; reflexivity.
Qed.

(** X5.  A predicate that is none of the six yields False on every
    text column, and on the date once the comparison value has parsed. *)
Theorem unknown_predicate_false email field predicate value :
  predicate ∉ predicates ->
  (field ∈ text_fields ->
   _evaluate_condition parse email (mk_condition field predicate value) = Ok false)
  /\ (forall s d, value = PStr s -> parse s = Some d ->
      _evaluate_condition parse email (mk_condition "Received" predicate value)
      = Ok false).
Proof.
  intros Hp.
  assert (forall fv v, apply_predicate predicate fv v = Ok false) as Hfalse.
  { intros fv v. unfold apply_predicate.
    repeat (case String.eqb_spec;
            [intros ->; exfalso; apply Hp; unfold predicates; set_solver | intros _]).
    reflexivity. }
  split.
  - intros Hf. unfold _evaluate_condition. cbn [c_field c_value c_predicate].
    rewrite (resolve_field_text _ _ _ Hf). apply Hfalse.
  - intros s d -> Hs. unfold _evaluate_condition. cbn [c_field c_value c_predicate].
    rewrite (resolve_field_received _ _ _ _ Hs). apply Hfalse.
Qed.

(** X6.  A combinator that is neither All nor Any never matches: the
    matcher returns False when every child returns, and raises when a
    child does. *)
Theorem unknown_combinator_never_matches email predicate conditions :
  predicate <> "All" -> predicate <> "Any" ->
  _evaluate_rule_conditions parse email (mk_rule_conditions predicate conditions)
  <> Ok true
  /\ (_evaluate_rule_conditions parse email (mk_rule_conditions predicate conditions)
      = Ok false
      <-> Forall (fun c => exists b, _evaluate_condition parse email c = Ok b)
                 conditions).
Proof.
  intros Hall Hany. unfold _evaluate_rule_conditions. cbn [rc_predicate rc_rules].
  rewrite <- (comprehension_returns (_evaluate_condition parse email) conditions).
  destruct (comprehension _ conditions) as [results|e]; cbn.
  - destruct (String.eqb_spec predicate "All"); [contradiction|].
    destruct (String.eqb_spec predicate "Any"); [contradiction|].
    split; [discriminate | split; eauto].
  - split; [discriminate | split; [discriminate | intros [? [=]]]].
Qed.

(** No condition reads the read flag. *)
Lemma matcher_ignores_read_flag email b rule_conditions :
  _evaluate_rule_conditions parse (Email.set_is_read b email) rule_conditions
  = _evaluate_rule_conditions parse email rule_conditions.
Proof. reflexivity. Qed.

End MoreEvaluatorFacts.

(** Witness: the subject of the sample message, in capitals. *)
Lemma contains_is_lowered_slice_witness :
  ("Subject" ∈ text_fields)
  /\ (_evaluate_condition iso_parse test_email
        (mk_condition "Subject" "Contains" (PStr "SUBJ")) = Ok true
      <-> exists pre post,
            PyStr.lower (Py.str (text_column test_email "Subject"))
            = pre ++ PyStr.lower (Py.str (PStr "SUBJ")) ++ post).
Proof.
  split; [compute_done|].
  apply (contains_is_lowered_slice iso_parse test_email "Subject" (PStr "SUBJ")).
  compute_done.
Defined.

(** * Further properties of the action applicator *)

Ltac exec_apply_action :=
  unfold _apply_action, try_except, mbind, M_bind, self_gmail_service.

(** The table after an action: untouched, or the read flag of the one
    row rewritten by one of the two marking actions. *)
Lemma apply_action_table email_id action w :
  table (fst (_apply_action email_id action w)) = table w
  \/ exists b,
       (a_type action = "mark_as_read" \/ a_type action = "mark_as_unread")
       /\ table (fst (_apply_action email_id action w))
          = alter (Email.set_is_read b) email_id (table w).
Proof.
  destruct w as [[g|] t c lg]; [|left; reflexivity].
  destruct g as [ls ml nl rq fs]. exec_apply_action. cbn [gmail_service].
  destruct (param action "label") as [label_name|e] eqn:Hp.
  all: repeat (case String.eqb_spec; intros ?).
  all: destruct fs as [|[] [|[] [|[] fs]]].
  all: cbn -[find_label].
  all: try (destruct (find_label _ _); cbn).
  all: try (destruct (t !! email_id); cbn).
  all: first [left; reflexivity | right; eexists; split; [eauto | reflexivity]].
Qed.

(** X7.  Whatever the action and the answers of the service, the
    applicator changes nothing in the table but the read flag of the
    row of the message; an action that is not one of the two marking
    actions leaves the table as it was. *)
Theorem apply_action_touches_read_flag_only email_id action w :
  let w' := fst (_apply_action email_id action w) in
  (forall id, id <> email_id -> table w' !! id = table w !! id)
  /\ columns <$> table w' !! email_id = columns <$> table w !! email_id
  /\ (a_type action <> "mark_as_read" -> a_type action <> "mark_as_unread" ->
      table w' = table w).
Proof.
  intros w'. subst w'.
  destruct (apply_action_table email_id action w) as [-> | (b & Hty & ->)].
  - auto.
  - split; [|split].
    + intros id Hne. apply lookup_alter_ne. congruence.
    + rewrite lookup_alter_eq. destruct (table w !! email_id); reflexivity.
    + intros H1 H2. destruct Hty; contradiction.
Qed.

(** X8.  A marking action whose request fails changes neither the row
    nor the labels of the message, and logs the failure: the local flag
    is written only after the service has answered. *)
Theorem failed_mark_changes_nothing email_id action w g :
  a_type action = "mark_as_read" \/ a_type action = "mark_as_unread" ->
  gmail_service w = Some g -> fails_at 0 g = true ->
  let w' := fst (_apply_action email_id action w) in
  table w' = table w
  /\ (exists g', gmail_service w' = Some g'
                 /\ message_labels g' = message_labels g)
  /\ logged w w' = [ActionError (a_type action) email_id HttpError].
Proof.
  intros Hty Hg Hf w'. subst w'.
  destruct w as [s t c lg]. cbn in Hg. subst s.
  destruct g as [ls ml nl rq fs]. unfold fails_at in Hf. cbn [faults] in Hf.
  destruct fs as [|[] fs]; try discriminate Hf.
  exec_apply_action. unfold logged.
  destruct Hty as [-> | ->]; cbn; rewrite drop_app_length; eauto.
Qed.

(** X9.  A marking action on a message that has no row in the table is
    no error: the request is issued, the table stays as it was and no
    ERROR line is logged. *)
Theorem mark_without_row email_id action w g :
  a_type action = "mark_as_read" \/ a_type action = "mark_as_unread" ->
  gmail_service w = Some g -> fails_at 0 g = false ->
  table w !! email_id = None ->
  let w' := fst (_apply_action email_id action w) in
  table w' = table w
  /\ (exists rq, issued w w' = [(rq, Done)] /\ request_about rq = Some email_id)
  /\ Forall (fun ev => level_of ev <> ERROR) (logged w w').
Proof.
  intros Hty Hg Hf Hrow w'. subst w'.
  destruct w as [s t c lg]. cbn in Hg, Hrow. subst s.
  destruct g as [ls ml nl rq fs]. unfold fails_at in Hf. cbn [faults] in Hf.
  exec_apply_action. unfold logged, issued.
  destruct fs as [|[] fs]; try discriminate Hf;
    destruct Hty as [-> | ->]; cbn; rewrite Hrow; cbn; rewrite !drop_app_length;
    (split; [reflexivity | split; [eauto | repeat constructor; discriminate]]).
Qed.

(** X10.  A move whose action carries no label (no ['params'], or no
    ['label'] in it) issues no request and changes nothing; the missing
    key is logged as the error of the action. *)
Theorem move_without_label email_id action e w g :
  a_type action = "move_message" -> param action "label" = Raise e ->
  gmail_service w = Some g ->
  let w' := fst (_apply_action email_id action w) in
  gmail_service w' = Some g
  /\ table w' = table w
  /\ logged w w' = [ActionError "move_message" email_id e]
  /\ exists key, e = KeyError key.
Proof.
  intros Hty Hp Hg w'. subst w'.
  destruct w as [s t c lg]. cbn in Hg. subst s.
  exec_apply_action. rewrite Hty, Hp. unfold logged. cbn. rewrite drop_app_length.
  repeat split. unfold param in Hp.
  destruct (a_params action) as [params|]; [destruct (params !! "label")|];
    inversion Hp; eauto.
Qed.

(** X11.  A move attaches a label only once it has an id for it.  When
    the listing fails nothing else is asked; when no label matches and
    the creation fails nothing is attached.  Either way the labels of
    the account and of the messages stay as they were and the failure
    is logged by the handler of the move. *)
Theorem move_failure_attaches_nothing email_id action label_name w g :
  a_type action = "move_message" -> param action "label" = Ok label_name ->
  gmail_service w = Some g ->
  let w' := fst (_apply_action email_id action w) in
  (fails_at 0 g = true ->
   issued w w' = [(LabelsList, Failed)]
   /\ logged w w' = [LabelError label_name email_id HttpError]
   /\ exists g', gmail_service w' = Some g'
                 /\ labels g' = labels g /\ message_labels g' = message_labels g)
  /\ (fails_at 0 g = false -> fails_at 1 g = true ->
      Forall (fun l => PyStr.lower (l_name l) <> PyStr.lower label_name) (labels g) ->
      issued w w' = [(LabelsList, Done); (LabelsCreate label_name, Failed)]
      /\ logged w w' = [LabelError label_name email_id HttpError]
      /\ exists g', gmail_service w' = Some g'
                    /\ labels g' = labels g /\ message_labels g' = message_labels g).
Proof.
  intros Hty Hp Hg w'. subst w'.
  destruct w as [s t c lg]. cbn in Hg. subst s.
  destruct g as [ls ml nl rq fs]. unfold fails_at, issued, logged.
  cbn [faults labels gmail_service requests message_labels log].
  exec_apply_action. rewrite Hty, Hp. split.
  - intros H0. destruct fs as [|[] fs]; try discriminate H0.
    cbn. rewrite !drop_app_length. eauto 6.
  - intros H0 H1 Hnone.
    destruct fs as [|[] [|[] fs]]; try discriminate H0; try discriminate H1.
    cbn -[find_label]. rewrite (find_label_none _ _ Hnone). cbn.
    rewrite <- ?app_assoc, !drop_app_length. eauto 6.
Qed.

Lemma find_label_app_new label_name ls l :
  Forall (fun l => PyStr.lower (l_name l) <> PyStr.lower label_name) ls ->
  PyStr.lower (l_name l) = PyStr.lower label_name ->
  find_label label_name (ls ++ [l]) = Some l.
Proof.
  intros Hnone Hl. unfold find_label.
  induction Hnone as [|l0 ls Hl0 _ IH]; cbn.
  - rewrite Hl, String.eqb_refl. reflexivity.
  - case String.eqb_spec; [contradiction | intros _; exact IH].
Qed.

(** X12.  Moving a message twice to a label the account does not have
    creates the label once: the second move finds the label the first
    one created and attaches that same label. *)
Theorem move_twice_creates_once email_id action label_name w g :
  a_type action = "move_message" -> param action "label" = Ok label_name ->
  gmail_service w = Some g ->
  Forall (fun l => PyStr.lower (l_name l) <> PyStr.lower label_name) (labels g) ->
  fails_at 0 g = false -> fails_at 1 g = false -> fails_at 3 g = false ->
  let w' := fst (for_actions email_id [action; action] w) in
  exists new_label first second,
    issued w w'
    = [(LabelsList, Done); (LabelsCreate label_name, Done);
       (MessagesModify email_id [l_id new_label] [], first);
       (LabelsList, Done);
       (MessagesModify email_id [l_id new_label] [], second)].
Proof.
  intros Hty Hp Hg Hnone H0 H1 H3 w'. subst w'.
  destruct w as [s t c lg]. cbn in Hg. subst s.
  destruct g as [ls ml nl rq fs]. unfold fails_at in *. cbn [faults labels] in *.
  cbn [for_actions]. exec_apply_action. rewrite Hty, Hp. unfold issued.
  exists (mk_label ("Label_" ++ PyStr.of_int (Z.of_nat nl)) label_name).
  assert (find_label label_name
            (ls ++ [mk_label ("Label_" ++ PyStr.of_int (Z.of_nat nl)) label_name])
          = Some (mk_label ("Label_" ++ PyStr.of_int (Z.of_nat nl)) label_name)) as Hnew
    by (apply find_label_app_new; [exact Hnone | reflexivity]).
  destruct fs as [|[] [|[] [|[] [|[] [|[] fs]]]]];
    try discriminate H0; try discriminate H1; try discriminate H3.
  all: cbn -[find_label]; rewrite (find_label_none _ _ Hnone).
  all: cbn -[find_label]; rewrite ?Hnew.
  all: cbn; rewrite <- ?app_assoc, drop_app_length; eauto.
Qed.

(** X13.  Each action that issues a single request is idempotent on the
    state: applied a second time, both requests answered, it leaves the
    table and the labels as the first application left them. *)
Theorem simple_action_idempotent email_id action w g :
  a_type action ∈ simple_action_types ->
  gmail_service w = Some g -> fails_at 0 g = false -> fails_at 1 g = false ->
  let w1 := fst (_apply_action email_id action w) in
  let w2 := fst (_apply_action email_id action w1) in
  table w2 = table w1
  /\ exists g1 g2,
       gmail_service w1 = Some g1 /\ gmail_service w2 = Some g2
       /\ message_labels g2 = message_labels g1 /\ labels g2 = labels g1.
Proof.
  intros Hty Hg Hfirst Hsecond w1 w2. subst w1 w2.
  destruct w as [s t c lg]. cbn in Hg. subst s.
  destruct g as [ls ml nl rq fs]. unfold fails_at in *. cbn [faults] in *.
  unfold simple_action_types in Hty. rewrite !elem_of_cons, elem_of_nil in Hty.
  exec_apply_action.
  destruct fs as [|[] [|[] fs]]; try discriminate Hfirst; try discriminate Hsecond.
  all: destruct Hty as [->|[->|[->|[->|[->|[->|[]]]]]]].
  all: cbn; destruct (t !! email_id) as [row|] eqn:Hrow; cbn;
       rewrite ?lookup_alter_eq, ?Hrow; cbn.
  all: split;
       [ first [ reflexivity
               | apply map_eq; intros i;
                 destruct (decide (i = email_id)) as [->|Hne];
                 [rewrite !lookup_alter_eq; destruct (t !! email_id); reflexivity
                 |rewrite !lookup_alter_ne by congruence; reflexivity] ]
       | do 2 eexists; split; [reflexivity|]; split; [reflexivity|];
         split; [|reflexivity] ].
  all: clear; unfold Gmail.labels_of; cbn; rewrite lookup_insert_eq, insert_insert_eq;
       cbn; f_equal; apply set_eq; intros x;
       rewrite ?elem_of_difference, ?elem_of_union, ?elem_of_difference,
         ?elem_of_union, ?elem_of_singleton, ?elem_of_empty; tauto.
Qed.

(** * Further properties of the engine pass *)

Lemma snoc2 {A} (l : list A) a b : ((l ++ [a]) ++ [b] = l ++ [a; b])%list.
Proof. rewrite <- app_assoc. reflexivity. Qed.

Lemma snoc3 {A} (l : list A) a b c :
  (((l ++ [a]) ++ [b]) ++ [c] = l ++ [a; b; c])%list.
Proof. rewrite <- !app_assoc. reflexivity. Qed.

(** The journal after an action: the one before, followed by requests
    that name no message but the one acted on. *)
Lemma apply_action_journal email_id action w g :
  gmail_service w = Some g ->
  exists g' new,
    gmail_service (fst (_apply_action email_id action w)) = Some g'
    /\ requests g' = (requests g ++ new)%list
    /\ Forall (fun r => forall id, request_about r.1 = Some id -> id = email_id) new.
Proof.
  intros Hg. destruct w as [s t c lg]. cbn in Hg. subst s.
  destruct g as [ls ml nl rq fs]. exec_apply_action. cbn [gmail_service requests].
  destruct (param action "label") as [label_name|e] eqn:Hp.
  all: repeat (case String.eqb_spec; intros ?).
  all: destruct fs as [|[] [|[] [|[] fs]]].
  all: cbn -[find_label].
  all: try (destruct (find_label _ _); cbn).
  all: try (destruct (t !! email_id); cbn).
  all: eexists; eexists; split; [reflexivity|]; cbn [requests].
  all: split;
       [first [apply snoc3 | apply snoc2 | reflexivity | symmetry; apply app_nil_r]|].
  all: repeat (constructor; [cbn; intros id' Hid; congruence|]); constructor.
Qed.

Lemma apply_action_no_service email_id action w :
  gmail_service w = None ->
  gmail_service (fst (_apply_action email_id action w)) = None
  /\ table (fst (_apply_action email_id action w)) = table w.
Proof.
  intros Hg. destruct w as [s t c lg]. cbn in Hg. subst s. split; reflexivity.
Qed.

Lemma run_steps_journal steps w g :
  gmail_service w = Some g ->
  exists g' new,
    gmail_service (run_steps steps w) = Some g'
    /\ requests g' = (requests g ++ new)%list
    /\ Forall (fun r => forall id, request_about r.1 = Some id ->
                                   id ∈ applied_ids steps) new.
Proof.
  revert w g. induction steps as [|s steps IH]; intros w g Hg.
  - exists g, []. rewrite app_nil_r. repeat split; [exact Hg | constructor].
  - change (run_steps (s :: steps) w) with (run_steps steps (run_step w s)).
    destruct s as [ev | email_id action].
    + destruct (IH (run_step w (Emit ev)) g Hg) as (g' & new & H1 & H2 & H3).
      exists g', new. repeat split; assumption.
    + destruct (apply_action_journal email_id action w g Hg)
        as (g1 & new1 & Hg1 & Hrq1 & Hnew1).
      destruct (IH (run_step w (Apply email_id action)) g1 Hg1)
        as (g' & new & H1 & H2 & H3).
      exists g', (new1 ++ new)%list. split; [exact H1|].
      split; [rewrite H2, Hrq1, app_assoc; reflexivity|].
      apply Forall_app. split.
      * eapply Forall_impl; [exact Hnew1|]. cbn. intros r Hr id Hid.
        rewrite (Hr id Hid). cbn. left.
      * eapply Forall_impl; [exact H3|]. cbn. intros r Hr id Hid.
        right. exact (Hr id Hid).
Qed.

Lemma run_steps_no_service steps w :
  gmail_service w = None ->
  gmail_service (run_steps steps w) = None /\ table (run_steps steps w) = table w.
Proof.
  revert w. induction steps as [|s steps IH]; intros w Hg; [auto|].
  change (run_steps (s :: steps) w) with (run_steps steps (run_step w s)).
  destruct s as [ev | email_id action].
  - apply (IH (run_step w (Emit ev))). exact Hg.
  - destruct (apply_action_no_service email_id action w Hg) as [Hs Ht].
    destruct (IH (run_step w (Apply email_id action)) Hs) as [Hs' Ht'].
    split; [exact Hs' | rewrite Ht'; exact Ht].
Qed.

(** The rows after a list of steps: the flags aside they are the rows
    before, and a row no step acts on is the row before. *)
Lemma run_steps_table steps w :
  (forall id, columns <$> table (run_steps steps w) !! id = columns <$> table w !! id)
  /\ (forall id, id ∉ applied_ids steps ->
      table (run_steps steps w) !! id = table w !! id).
Proof.
  revert w. induction steps as [|s steps IH]; intros w; [auto|].
  change (run_steps (s :: steps) w) with (run_steps steps (run_step w s)).
  destruct (IH (run_step w s)) as [IH1 IH2].
  destruct s as [ev | email_id action].
  - split; [exact IH1 | exact IH2].
  - assert ((forall id, id <> email_id ->
              table (fst (_apply_action email_id action w)) !! id = table w !! id)
            /\ columns <$> table (fst (_apply_action email_id action w)) !! email_id
               = columns <$> table w !! email_id) as (Hother & Hrow).
    { destruct (apply_action_table email_id action w) as [-> | (b & _ & ->)];
        [auto|]. split.
      - intros id Hne. apply lookup_alter_ne. congruence.
      - rewrite lookup_alter_eq. destruct (table w !! email_id); reflexivity. }
    split.
    + intros id. rewrite IH1. cbn [run_step].
      destruct (decide (id = email_id)) as [->|Hne];
        [exact Hrow | rewrite (Hother id Hne); reflexivity].
    + intros id Hid. cbn in Hid. rewrite not_elem_of_cons in Hid.
      destruct Hid as [Hne Hid]. rewrite (IH2 id Hid). exact (Hother id Hne).
Qed.

Section MoreEngineFacts.

Variable parse : string -> option datetime.
Variable rules : list Rule.

(** The steps of the walk over the rules act on the message walked, and
    only if a rule matches it. *)
Lemma for_rules_plan_matched email rs :
  exists steps r,
    (forall w, for_rules parse email rs w = (run_steps steps w, r))
    /\ (forall id, id ∈ applied_ids steps ->
        id = Email.id email
        /\ exists rule, rule ∈ rs /\ matches parse email rule = true).
Proof.
  induction rs as [|rule rs (steps & r & IH & Hids)].
  - exists [], (Ok tt). split; [reflexivity|]. cbn. intros id Hid.
    apply elem_of_nil in Hid. contradiction.
  - destruct (_evaluate_rule_conditions parse email (r_conditions rule)) as [b|e] eqn:Hb.
    + exists ((if b then Emit (RuleMatched (r_name rule) (Email.id email))
                        :: map (Apply (Email.id email)) (r_actions rule)
               else []) ++ steps)%list, r.
      split.
      * intros w. cbn [for_rules]. rewrite run_steps_app.
        unfold mbind, M_bind, lift. rewrite Hb. destruct b.
        -- unfold logger at 1. cbn [fst]. rewrite for_actions_steps, IH. reflexivity.
        -- unfold mret, M_ret. rewrite IH. reflexivity.
      * intros id. unfold applied_ids. rewrite flat_map_app, elem_of_app.
        intros [Hid | Hid].
        -- destruct b; [|apply elem_of_nil in Hid; contradiction].
           cbn in Hid. apply list_elem_of_In, in_flat_map in Hid.
           destruct Hid as (s & Hs & Hid). apply in_map_iff in Hs.
           destruct Hs as (a & <- & _). cbn in Hid. destruct Hid as [<-|[]].
           split; [reflexivity|]. exists rule. split; [left|].
           unfold matches. rewrite Hb. reflexivity.
        -- destruct (Hids id Hid) as (Hid' & rule' & Hin & Hm).
           split; [exact Hid'|]. exists rule'. split; [right; exact Hin | exact Hm].
    + exists [], (Raise e). split.
      * intros w. cbn [for_rules]. unfold mbind, M_bind, lift. rewrite Hb. reflexivity.
      * cbn. intros id Hid. apply elem_of_nil in Hid. contradiction.
Qed.

Lemma for_emails_plan_matched emails processed_count :
  exists steps r,
    (forall w, for_emails parse rules emails processed_count w = (run_steps steps w, r))
    /\ (forall id, id ∈ applied_ids steps ->
        exists email rule,
          email ∈ emails /\ Email.id email = id
          /\ rule ∈ rules /\ matches parse email rule = true).
Proof.
  revert processed_count. induction emails as [|email emails IH]; intros processed_count.
  - exists [], (Ok processed_count). split; [reflexivity|]. cbn. intros id Hid.
    apply elem_of_nil in Hid. contradiction.
  - destruct (for_rules_plan_matched email rules) as (steps1 & [[]|e] & H1 & Hids1).
    + destruct (IH (S processed_count)) as (steps2 & r & H2 & Hids2).
      exists (steps1 ++ progress_steps (S processed_count) ++ steps2)%list, r.
      split.
      * intros w. cbn [for_emails]. rewrite !run_steps_app.
        unfold mbind, M_bind. rewrite H1, progress_steps_run, H2. reflexivity.
      * intros id. unfold applied_ids. rewrite !flat_map_app, !elem_of_app.
        intros [Hid | [Hid | Hid]].
        -- destruct (Hids1 id Hid) as (-> & rule & Hin & Hm).
           exists email, rule. repeat split; [left | exact Hin | exact Hm].
        -- unfold progress_steps in Hid. destruct (_ =? _)%nat; cbn in Hid;
             apply elem_of_nil in Hid; contradiction.
        -- destruct (Hids2 id Hid) as (email' & rule & Hin & Hid' & Hr & Hm).
           exists email', rule. repeat split; [right; exact Hin | | |]; assumption.
    + exists steps1, (Raise e). split.
      * intros w. cbn [for_emails]. unfold mbind, M_bind. rewrite H1. reflexivity.
      * intros id Hid. destruct (Hids1 id Hid) as (-> & rule & Hin & Hm).
        exists email, rule. repeat split; [left | exact Hin | exact Hm].
Qed.

(** A pass is a list of steps that depends on the rules and on the rows
    alone and acts on matched messages only. *)
Lemma process_emails_plan_matched limit rows :
  exists steps,
    (forall w, table w = rows ->
       process_emails parse rules limit w
       = (fst (session_close (run_steps steps w)), Ok tt))
    /\ (forall id, id ∈ applied_ids steps ->
        exists email rule,
          email ∈ query_all limit rows /\ Email.id email = id
          /\ rule ∈ rules /\ matches parse email rule = true).
Proof.
  destruct (for_emails_plan_matched (query_all limit rows) 0)
    as (steps & r & Hloop & Hids).
  exists ([Emit (opening limit rules); Emit (Found (length (query_all limit rows)))]
          ++ steps
          ++ [Emit match r with
                   | Ok processed_count => Completed processed_count
                   | Raise e => ProcessingError e
                   end])%list.
  split.
  - intros w <-. unfold process_emails, try_finally, try_except.
    unfold mbind, M_bind.
    assert ((match limit with
             | Some n => logger (ProcessingRecent n (length rules))
             | None => logger (ProcessingAll (length rules))
             end) w = (run_step w (Emit (opening limit rules)), Ok tt)) as ->
      by (destruct limit; reflexivity).
    cbn [run_step logger fst table]. unfold logger at 2. rewrite Hloop.
    rewrite !run_steps_app. destruct r; reflexivity.
  - intros id. unfold applied_ids. rewrite !flat_map_app, !elem_of_app. cbn.
    intros [Hid | [Hid | Hid]];
      [apply elem_of_nil in Hid; contradiction | exact (Hids id Hid)
      |apply elem_of_nil in Hid; contradiction].
Qed.

(** X14.  Every pass returns normally with the session closed, also
    when a matcher raised in it. *)
Theorem pass_returns_with_session_closed limit w :
  exists w', process_emails parse rules limit w = (w', Ok tt)
             /\ session_closed w' = true.
Proof.
  destruct (process_emails_plan parse rules limit (table w)) as [steps Hpass].
  rewrite (Hpass w eq_refl). eexists. split; reflexivity.
Qed.

(** X15.  A pass asks the service about matched messages only: every
    request it issues that names a message names one the query returned
    and some rule matches. *)
Theorem pass_requests_name_matched_messages limit w rq o id :
  (rq, o) ∈ issued w (fst (process_emails parse rules limit w)) ->
  request_about rq = Some id ->
  exists email rule,
    email ∈ query_all limit (table w) /\ Email.id email = id
    /\ rule ∈ rules /\ matches parse email rule = true.
Proof.
  destruct (process_emails_plan_matched limit (table w)) as (steps & Hpass & Hids).
  rewrite (Hpass w eq_refl). cbn [fst session_close]. unfold issued. cbn [gmail_service].
  destruct (gmail_service w) as [g|] eqn:Hg;
    [|intros Hin; apply elem_of_nil in Hin; contradiction].
  destruct (run_steps_journal steps w g Hg) as (g' & new & -> & -> & Hnew).
  rewrite drop_app_length. intros Hin Hid.
  rewrite Forall_forall in Hnew. apply Hids, (Hnew (rq, o) Hin id Hid).
Qed.

(** X16.  A pass adds no row, removes none, and changes no column but
    the read flag; the row of a message that no rule matches is left as
    it was, flag included. *)
Theorem pass_changes_read_flags_only limit w :
  let w' := fst (process_emails parse rules limit w) in
  (forall id, columns <$> table w' !! id = columns <$> table w !! id)
  /\ (forall id,
      (forall email rule,
         email ∈ query_all limit (table w) -> Email.id email = id ->
         rule ∈ rules -> matches parse email rule = false) ->
      table w' !! id = table w !! id).
Proof.
  intros w'. subst w'.
  destruct (process_emails_plan_matched limit (table w)) as (steps & Hpass & Hids).
  rewrite (Hpass w eq_refl). cbn [fst session_close table].
  destruct (run_steps_table steps w) as [Hcols Hrows]. split; [exact Hcols|].
  intros id Hno. apply Hrows. intros Hid.
  destruct (Hids id Hid) as (email & rule & He & Hi & Hr & Hm).
  rewrite (Hno email rule He Hi Hr) in Hm. discriminate Hm.
Qed.

(** X17.  Without a Gmail service a pass changes no row, whatever the
    rules: every action is refused by the guard of the applicator. *)
Theorem pass_without_service limit w :
  gmail_service w = None ->
  let w' := fst (process_emails parse rules limit w) in
  gmail_service w' = None /\ table w' = table w.
Proof.
  intros Hg w'. subst w'.
  destruct (process_emails_plan parse rules limit (table w)) as [steps Hpass].
  rewrite (Hpass w eq_refl). cbn [fst session_close gmail_service table].
  exact (run_steps_no_service steps w Hg).
Qed.

End MoreEngineFacts.

Lemma run_emits evs w :
  run_steps (map Emit evs) w
  = mk_world (gmail_service w) (table w) (session_closed w) (log w ++ evs).
Proof.
  revert w. induction evs as [|ev evs IH]; intros w.
  - cbn. rewrite app_nil_r. destruct w; reflexivity.
  - change (run_steps (map Emit (ev :: evs)) w)
      with (run_steps (map Emit evs) (run_step w (Emit ev))).
    rewrite IH. cbn. rewrite <- app_assoc. reflexivity.
Qed.

Lemma pass_steps_no_rules parse processed_count emails :
  exists progress,
    pass_steps parse [] processed_count emails = map Emit progress
    /\ Forall (fun ev => exists n, ev = Progress n) progress.
Proof.
  revert processed_count. induction emails as [|email emails IH]; intros k.
  - exists []. split; [reflexivity | constructor].
  - destruct (IH (S k)) as (progress & Hsteps & Hp).
    cbn [pass_steps flat_map app]. rewrite Hsteps. unfold progress_steps.
    destruct (S k mod 10 =? 0)%nat.
    + exists (Progress (S k) :: progress). split; [reflexivity|].
      constructor; eauto.
    + exists progress. split; [reflexivity | exact Hp].
Qed.

(** X18.  With an empty rule set a pass is a no-op: no request is
    issued, no row is changed, and it reports the messages it found as
    processed. *)
Theorem pass_with_no_rules parse limit w :
  let w' := fst (process_emails parse [] limit w) in
  let found := length (query_all limit (table w)) in
  gmail_service w' = gmail_service w
  /\ table w' = table w
  /\ exists progress,
       log w' = (log w ++ [opening limit []; Found found] ++ progress
                 ++ [Completed found])%list
       /\ Forall (fun ev => exists n, ev = Progress n) progress.
Proof.
  intros w' found. subst w'.
  assert (matcher_returns parse [] (query_all limit (table w))) as Hm
    by (apply Forall_forall; intros; constructor).
  rewrite (process_emails_completes parse [] limit w Hm). fold found.
  destruct (pass_steps_no_rules parse 0 (query_all limit (table w)))
    as (progress & -> & Hp).
  change [Emit (opening limit []); Emit (Found found)]
    with (map Emit [opening limit []; Found found]).
  change [Emit (Completed found)] with (map Emit [Completed found]).
  rewrite <- !map_app, run_emits. cbn [fst session_close gmail_service table log].
  repeat split. exists progress. split; [reflexivity | exact Hp].
Qed.

(** * Properties of the ingestion *)

Lemma answers_failing n s : Fetch.answers (S n) s -> Fetch.failing s = false.
Proof.
  unfold Fetch.answers, Fetch.failing. destruct (Fetch.faults s) as [|b fs]; [reflexivity|].
  cbn. intros H. inversion H; assumption.
Qed.

Lemma answers_journalled n entry s :
  Fetch.answers (S n) s -> Fetch.answers n (Fetch.journalled [entry] s).
Proof.
  unfold Fetch.answers, Fetch.journalled. cbn.
  destruct (Fetch.faults s) as [|b fs]; cbn.
  - intros _. rewrite take_nil. constructor.
  - intros H. inversion H; subst. rewrite drop_0. assumption.
Qed.

Lemma journalled_app e1 e2 s :
  Fetch.journalled e2 (Fetch.journalled e1 s) = Fetch.journalled (e1 ++ e2) s.
Proof.
  unfold Fetch.journalled. cbn. rewrite <- app_assoc, drop_drop, length_app.
  reflexivity.
Qed.

(** An answered request. *)
Lemma request_answered {A} c (answer : Fetch.server -> Fetch.res A) a w s :
  Fetch.service w = Some s -> Fetch.failing s = false -> answer s = Fetch.Val a ->
  Fetch.request c answer w
  = (Fetch.with_server (Fetch.journalled [(c, Done)] s) w, Fetch.Val a).
Proof.
  intros Hs Hf Ha. unfold Fetch.request. rewrite Hs, Hf, Ha.
  unfold Fetch.with_server, Fetch.journalled. cbn.
  destruct (Fetch.faults s); reflexivity.
Qed.

Section FetchFacts.

Variable b64decode : string -> option string.
Variable parsedate : string -> option datetime.
Variable now : datetime.

(** X19.  A header is looked up by its name without regard to case: the
    value is that of the first header of that name, and the empty text
    when there is none. *)
Theorem header_first_match name hs :
  (Forall (fun h => PyStr.lower h.1 <> name) hs -> Fetch.header name hs = EmptyString)
  /\ (forall pre h post,
      hs = (pre ++ h :: post)%list ->
      Forall (fun h' => PyStr.lower h'.1 <> name) pre ->
      PyStr.lower h.1 = name ->
      Fetch.header name hs = h.2).
Proof.
  unfold Fetch.header. split.
  - induction 1 as [|h0 hs Hh _ IH]; [reflexivity|]. cbn.
    case String.eqb_spec; [contradiction | intros _; exact IH].
  - intros pre h post -> Hpre Hh. induction Hpre as [|h0 pre Hh0 _ IH]; cbn.
    + rewrite Hh, String.eqb_refl. reflexivity.
    + case String.eqb_spec; [contradiction | intros _; exact IH].
Qed.

(** The loop over the pages after page [k], all of them served. *)
Lemma following_pages_all more k w s :
  Fetch.service w = Some s ->
  more = drop k (Fetch.pages s) -> (k < length (Fetch.pages s))%nat ->
  Fetch.answers (length more) s ->
  Fetch.following_pages more k w
  = (Fetch.with_server
       (Fetch.journalled
          (map (fun k => (Fetch.ListMessages None (Some k), Done)) (seq k (length more)))
          s) w,
     Fetch.Val (concat more)).
Proof.
  revert k w s. induction more as [|page more IH]; intros k w s Hs Hmore Hk Hans.
  - apply (f_equal length) in Hmore. rewrite length_drop in Hmore. cbn in Hmore. lia.
  - assert (Fetch.pages s !! k = Some page /\ more = drop (S k) (Fetch.pages s))
      as [Hpage Hrest].
    { split.
      - rewrite <- (Nat.add_0_r k), <- lookup_drop, <- Hmore. reflexivity.
      - replace (S k) with (k + 1)%nat by lia.
        rewrite <- drop_drop, <- Hmore. reflexivity. }
    cbn [Fetch.following_pages length seq map]. unfold mbind, Fetch.F_bind, Fetch.list_page.
    rewrite (request_answered _ _ (page, bool_decide (S k < length (Fetch.pages s))%nat)
               w s Hs (answers_failing _ _ Hans))
      by (unfold Fetch.page_answer; rewrite Hpage; reflexivity).
    assert (length more = length (Fetch.pages s) - S k)%nat as Hlen
      by (rewrite Hrest, length_drop; reflexivity).
    case_bool_decide as Hnext.
    + rewrite (IH (S k)
                 (Fetch.with_server
                    (Fetch.journalled [(Fetch.ListMessages None (Some k), Done)] s) w)
                 (Fetch.journalled [(Fetch.ListMessages None (Some k), Done)] s)
                 eq_refl Hrest Hnext (answers_journalled _ _ _ Hans)).
      unfold mret, Fetch.F_ret. cbn [concat]. f_equal.
      unfold Fetch.with_server. cbn. rewrite journalled_app. reflexivity.
    + assert (more = []) as -> by (apply length_zero_iff_nil; lia).
      unfold mret, Fetch.F_ret. cbn. rewrite app_nil_r. reflexivity.
Qed.

(** X20.  When its requests are answered, the listing reads every page
    of the inbox, in order, if no limit is given, and the first page
    alone if one is given, whether or not more pages follow. *)
Theorem list_messages_reads max_results w s :
  Fetch.service w = Some s ->
  Fetch.answers (length (Fetch.listing max_results s)) s ->
  Fetch.list_messages max_results w
  = (Fetch.with_server (Fetch.journalled (Fetch.listing max_results s) s) w,
     Fetch.Val (Fetch.listed max_results s)).
Proof.
  intros Hs Hans. unfold Fetch.list_messages, Fetch.list_page, mbind, Fetch.F_bind.
  assert (Fetch.failing s = false) as Hf
    by (destruct max_results; exact (answers_failing _ _ Hans)).
  rewrite (request_answered _ _
             (default [] (Fetch.pages s !! 0%nat),
              bool_decide (1 < length (Fetch.pages s))%nat) w s Hs Hf)
    by reflexivity.
  destruct max_results as [n|]; [reflexivity|].
  unfold Fetch.pages_after_first. cbn [Fetch.service Fetch.with_server Fetch.journalled
                                       Fetch.pages].
  unfold Fetch.listing, Fetch.listed in *. cbn [length] in Hans.
  rewrite length_map, length_seq in Hans.
  case_bool_decide as Hnext.
  - rewrite (following_pages_all (tail (Fetch.pages s)) 1
               (Fetch.with_server
                  (Fetch.journalled [(Fetch.ListMessages None None, Done)] s) w)
               (Fetch.journalled [(Fetch.ListMessages None None, Done)] s) eq_refl).
    + unfold mret, Fetch.F_ret. f_equal.
      * unfold Fetch.with_server. cbn [Fetch.service Fetch.session_factory Fetch.table
          Fetch.pending Fetch.db_faults Fetch.closed Fetch.log].
        rewrite journalled_app. cbn [Fetch.journalled Fetch.pages].
        replace (length (tail (Fetch.pages s))) with (length (Fetch.pages s) - 1)%nat
          by (destruct (Fetch.pages s); cbn; lia).
        reflexivity.
      * f_equal. destruct (Fetch.pages s); reflexivity.
    + cbn [Fetch.journalled Fetch.pages]. destruct (Fetch.pages s); reflexivity.
    + exact Hnext.
    + replace (length (tail (Fetch.pages s))) with (length (Fetch.pages s) - 1)%nat
        by (destruct (Fetch.pages s); cbn; lia).
      apply answers_journalled. exact Hans.
  - unfold mret, Fetch.F_ret.
    destruct (Fetch.pages s) as [|p [|q ps]] eqn:Hps; cbn in Hnext; try lia;
      cbn; rewrite ?app_nil_r; reflexivity.
Qed.

(** What a request leaves alone. *)
Lemma request_frame {A} c (answer : Fetch.server -> Fetch.res A) w :
  let w' := fst (Fetch.request c answer w) in
  Fetch.table w' = Fetch.table w /\ Fetch.pending w' = Fetch.pending w
  /\ Fetch.db_faults w' = Fetch.db_faults w
  /\ Fetch.mail_of w' = Fetch.mail_of w /\ Fetch.log w' = Fetch.log w.
Proof.
  unfold Fetch.request, Fetch.mail_of. destruct (Fetch.service w) eqn:Hs; cbn;
    rewrite ?Hs; repeat split.
Qed.

Lemma frame_refl w : Fetch.frame w w.
Proof. repeat split. Qed.

Lemma frame_trans w1 w2 w3 : Fetch.frame w1 w2 -> Fetch.frame w2 w3 -> Fetch.frame w1 w3.
Proof. unfold Fetch.frame. intros (?&?&?&?) (?&?&?&?). repeat split; congruence. Qed.

Lemma request_keeps {A} c (answer : Fetch.server -> Fetch.res A) w :
  Fetch.frame w (fst (Fetch.request c answer w)).
Proof. destruct (request_frame c answer w) as (?&?&?&?&?). repeat split; assumption. Qed.

Lemma following_pages_keeps more k w :
  Fetch.frame w (fst (Fetch.following_pages more k w)).
Proof.
  revert k w. induction more as [|page more IH]; intros k w; [apply frame_refl|].
  cbn [Fetch.following_pages]. unfold mbind, Fetch.F_bind, Fetch.list_page.
  pose proof (request_keeps (Fetch.ListMessages None (Some k)) (Fetch.page_answer k) w)
    as H1.
  destruct (Fetch.request _ _ w) as [w1 [[ids next]|e]]; [|exact H1].
  cbn [fst] in H1. destruct next.
  - pose proof (IH (S k) w1) as H2.
    destruct (Fetch.following_pages more (S k) w1) as [w2 [rest|e]];
      exact (frame_trans _ _ _ H1 H2).
  - exact H1.
Qed.

Lemma list_messages_keeps max_results w :
  Fetch.frame w (fst (Fetch.list_messages max_results w)).
Proof.
  unfold Fetch.list_messages, mbind, Fetch.F_bind, Fetch.list_page.
  pose proof (request_keeps (Fetch.ListMessages max_results None) (Fetch.page_answer 0) w)
    as H1.
  destruct (Fetch.request _ _ w) as [w1 [[ids next]|e]]; [|exact H1].
  cbn [fst] in H1. destruct max_results as [n|]; [exact H1|].
  unfold Fetch.pages_after_first. destruct next; [|exact H1].
  pose proof (following_pages_keeps
                (match Fetch.service w1 with Some s => tail (Fetch.pages s) | None => [] end)
                1 w1) as H2.
  destruct (Fetch.following_pages _ 1 w1) as [w2 [rest|e]];
    exact (frame_trans _ _ _ H1 H2).
Qed.

(** [email_of] yields the row of the message, or raises when there is
    none; it logs at most. *)
Lemma email_of_row msg w :
  Fetch.frame w (fst (Fetch.email_of b64decode parsedate now msg w))
  /\ match Fetch.row_of b64decode parsedate now msg with
     | Some row => snd (Fetch.email_of b64decode parsedate now msg w) = Fetch.Val row
     | None => exists e, snd (Fetch.email_of b64decode parsedate now msg w) = Fetch.Exc e
     end.
Proof.
  unfold Fetch.email_of, Fetch.row_of, Fetch.parse_email_date, mbind, Fetch.F_bind,
    Fetch.lift.
  destruct (Fetch.message_body b64decode msg) as [body|e]; cbn;
    [|split; [apply frame_refl | eauto]].
  destruct (parsedate (Fetch.header "date" (Fetch.headers msg))) as [d|]; cbn;
    destruct (Fetch.labelIds msg) as [labels|]; cbn;
    (split; [repeat split | eauto]).
Qed.

(** [store] never raises; the row joins the session unless the merge
    failed. *)
Lemma store_row msg row k w :
  exists w' n,
    Fetch.store msg row k w = (w', Fetch.Val n)
    /\ Fetch.table w' = Fetch.table w /\ Fetch.mail_of w' = Fetch.mail_of w
    /\ Fetch.db_faults w' = tail (Fetch.db_faults w)
    /\ ((head (Fetch.db_faults w) <> Some true
         /\ Fetch.pending w' = (Fetch.pending w ++ [row])%list /\ n = S k)
        \/ (head (Fetch.db_faults w) = Some true
            /\ Fetch.pending w' = Fetch.pending w /\ n = k)).
Proof.
  unfold Fetch.store, Fetch.try_except, Fetch.merge, mbind, Fetch.F_bind.
  set (tenth := (S k mod 10 =? 0)%nat).
  destruct (Fetch.db_faults w) as [|[] rest] eqn:Hm; destruct tenth; cbn.
  all: do 2 eexists; (split; [reflexivity|]); cbn; repeat split.
  all: first [ left; repeat split; discriminate | right; repeat split ].
Qed.

(** The loop over the messages writes nothing: it merges rows of
    messages the service holds into the session and counts them. *)
Lemma store_messages_merges ids k w :
  Fetch.table (fst (Fetch.store_messages b64decode parsedate now ids k w)) = Fetch.table w
  /\ exists rows,
       Fetch.pending (fst (Fetch.store_messages b64decode parsedate now ids k w))
       = (Fetch.pending w ++ rows)%list
       /\ Forall (Fetch.fetched b64decode parsedate now (Fetch.mail_of w)) rows
       /\ (forall n, snd (Fetch.store_messages b64decode parsedate now ids k w)
                     = Fetch.Val n -> n = (k + length rows)%nat).
Proof.
  revert k w. induction ids as [|id ids IH]; intros k w.
  - cbn. split; [reflexivity|]. exists []. rewrite app_nil_r.
    repeat split; [constructor|]. intros n [= <-]. cbn. lia.
  - cbn [Fetch.store_messages]. unfold mbind, Fetch.F_bind, Fetch.get_message.
    pose proof (request_keeps (Fetch.GetMessage id)
                  (fun s => match Fetch.mail s !! id with
                            | Some m => Fetch.Val m
                            | None => Fetch.Exc Fetch.HttpError
                            end) w) as (Ht1 & Hp1 & Hm1 & Hmail1).
    assert (forall msg, snd (Fetch.request (Fetch.GetMessage id)
                  (fun s => match Fetch.mail s !! id with
                            | Some m => Fetch.Val m
                            | None => Fetch.Exc Fetch.HttpError
                            end) w) = Fetch.Val msg ->
                        Fetch.mail_of w !! id = Some msg) as Hheld.
    { intros msg. unfold Fetch.request, Fetch.mail_of.
      destruct (Fetch.service w) as [s|]; cbn; [|discriminate].
      destruct (Fetch.failing s); [discriminate|].
      destruct (Fetch.mail s !! id); [congruence | discriminate]. }
    destruct (Fetch.request _ _ w) as [w1 [msg|e]]; cbn [fst snd] in *.
    2:{ split; [exact Ht1|]. exists []. rewrite app_nil_r.
        repeat split; [exact Hp1 | constructor | discriminate]. }
    destruct (email_of_row msg w1) as ((Ht2 & Hp2 & Hm2 & Hmail2) & Hrow).
    destruct (Fetch.email_of b64decode parsedate now msg w1) as [w2 [row|e]];
      cbn [fst snd] in *.
    2:{ split; [congruence|]. exists []. rewrite app_nil_r.
        repeat split; [congruence | constructor | discriminate]. }
    assert (Fetch.row_of b64decode parsedate now msg = Some row) as Hrow'.
    { destruct (Fetch.row_of b64decode parsedate now msg);
        [congruence | destruct Hrow; discriminate]. }
    destruct (store_row msg row k w2) as (w3 & n & -> & Ht3 & Hmail3 & _ & Hcase).
    destruct (IH n w3) as (Ht4 & rows & Hp4 & Hrows & Hn).
    split; [congruence|].
    assert (Fetch.mail_of w3 = Fetch.mail_of w) as Hmail by congruence.
    rewrite Hmail in Hrows.
    destruct Hcase as [(_ & Hp3 & ->) | (_ & Hp3 & ->)].
    + exists (row :: rows). rewrite Hp4, Hp3, Hp2, Hp1, <- app_assoc.
      repeat split.
      * constructor; [|exact Hrows]. exists id, msg. split; [|exact Hrow'].
        apply Hheld. reflexivity.
      * intros m Hm. rewrite (Hn m Hm). cbn. lia.
    + exists rows. rewrite Hp4, Hp3, Hp2, Hp1. repeat split; [exact Hrows | exact Hn].
Qed.

Lemma fetch_outcome max_results w :
  exists w' n,
    Fetch.fetch_and_store_emails b64decode parsedate now max_results w = (w', n)
    /\ ((exists rows,
          n = length rows
          /\ Fetch.table w' = Fetch.write rows (Fetch.table w)
          /\ Forall (Fetch.fetched b64decode parsedate now (Fetch.mail_of w)) rows
          /\ last (Fetch.log w') = Some (Fetch.Stored n))
        \/ (n = 0%nat
            /\ Fetch.table w' = Fetch.table w
            /\ exists ev, last (Fetch.log w') = Some ev
                          /\ (ev = Fetch.InitFailed
                              \/ exists e, ev = Fetch.FetchError e))).
Proof.
  unfold Fetch.fetch_and_store_emails.
  destruct (negb (bool_decide (is_Some (Fetch.service w))) || negb (Fetch.session_factory w)).
  { do 2 eexists. split; [reflexivity|]. right. cbn -[last]. repeat split.
    eexists. split; [apply last_snoc | eauto]. }
  unfold mbind, Fetch.F_bind. cbn [Fetch.open_session].
  assert (exists w2, (match max_results with
                      | Some n => Fetch.logger (Fetch.FetchingUpTo n)
                      | None => Fetch.logger Fetch.FetchingAll
                      end)
                       (Fetch.mk_world (Fetch.service w) (Fetch.session_factory w)
                          (Fetch.table w) [] (Fetch.db_faults w) false (Fetch.log w))
                     = (w2, Fetch.Val tt)
                     /\ Fetch.table w2 = Fetch.table w /\ Fetch.pending w2 = []
                     /\ Fetch.mail_of w2 = Fetch.mail_of w) as (w2 & -> & Ht2 & Hp2 & Hm2)
    by (destruct max_results; eexists; repeat split).
  destruct (list_messages_keeps max_results w2) as (Ht3 & Hp3 & _ & Hm3).
  destruct (Fetch.list_messages max_results w2) as [w3 [ids|e]]; cbn [fst] in *.
  2:{ do 2 eexists. split; [reflexivity|]. right. cbn -[last].
      split; [reflexivity|]. split; [congruence|].
      eexists. split; [apply last_snoc | eauto]. }
  unfold Fetch.logger at 1.
  match goal with
  | |- context [Fetch.store_messages _ _ _ ids 0 ?v] => remember v as w4 eqn:Hw4
  end.
  assert (Fetch.table w4 = Fetch.table w /\ Fetch.pending w4 = []
          /\ Fetch.mail_of w4 = Fetch.mail_of w) as (Ht4 & Hp4 & Hm4).
  { subst w4. unfold Fetch.mail_of in *. cbn. repeat split; congruence. }
  clear Hw4.
  destruct (store_messages_merges ids 0 w4) as (Ht5 & rows & Hp5 & Hrows & Hn).
  destruct (Fetch.store_messages b64decode parsedate now ids 0 w4) as [w5 [n|e]];
    cbn [fst snd] in *.
  2:{ do 2 eexists. split; [reflexivity|]. right. cbn -[last].
      split; [reflexivity|]. split; [congruence|].
      eexists. split; [apply last_snoc | eauto]. }
  unfold Fetch.commit.
  destruct (Fetch.db_faults w5) as [|[] rest].
  2:{ do 2 eexists. split; [reflexivity|]. right. cbn -[last].
      split; [reflexivity|]. split; [congruence|].
      eexists. split; [apply last_snoc | eauto]. }
  all: do 2 eexists; (split; [reflexivity|]); left; exists rows; cbn -[last];
    rewrite last_snoc, Hp5, Hp4, Ht5, Ht4, (Hn n eq_refl); cbn; repeat split;
    rewrite <- Hm4; exact Hrows.
Qed.

(** X21.  Ingestion is all or nothing.  Either it commits, and then the
    table is the old one with the rows of fetched messages written over
    it, in order, and the count returned is the number of those rows;
    or the table is what it was and the count is 0. *)
Theorem fetch_all_or_nothing max_results w :
  let w' := fst (Fetch.fetch_and_store_emails b64decode parsedate now max_results w) in
  let n := snd (Fetch.fetch_and_store_emails b64decode parsedate now max_results w) in
  (exists rows,
     n = length rows
     /\ Fetch.table w' = Fetch.write rows (Fetch.table w)
     /\ Forall (Fetch.fetched b64decode parsedate now (Fetch.mail_of w)) rows
     /\ last (Fetch.log w') = Some (Fetch.Stored n))
  \/ (n = 0%nat
      /\ Fetch.table w' = Fetch.table w
      /\ exists ev, last (Fetch.log w') = Some ev
                    /\ (ev = Fetch.InitFailed \/ exists e, ev = Fetch.FetchError e)).
Proof.
  destruct (fetch_outcome max_results w) as (w' & n & -> & H). exact H.
Qed.

Lemma write_lookup rows t i e :
  Fetch.write rows t !! i = Some e ->
  t !! i = Some e
  \/ exists row, row ∈ rows /\ Email.id row = i /\ e = Fetch.stored row.
Proof.
  unfold Fetch.write. revert t. induction rows as [|row rows IH]; intros t; cbn.
  - auto.
  - intros H. apply IH in H as [H | (r & Hin & Hid & He)].
    + destruct (decide (Email.id row = i)) as [<-|Hne].
      * rewrite lookup_insert_eq in H. injection H as <-.
        right. exists row. repeat split. left.
      * rewrite lookup_insert_ne in H by exact Hne. auto.
    + right. exists r. repeat split; [right; exact Hin | exact Hid | exact He].
Qed.

(** X22.  After an ingestion every row of the table is a row that was
    there before or mirrors a message the service holds: it carries the
    id of the message, its From header as sender, no zone in its date,
    and it is read exactly when the message does not bear UNREAD. *)
Theorem ingested_rows_mirror_messages max_results w i e :
  Fetch.table (fst (Fetch.fetch_and_store_emails b64decode parsedate now max_results w))
    !! i = Some e ->
  Fetch.table w !! i = Some e
  \/ exists id msg labels,
       Fetch.mail_of w !! id = Some msg
       /\ Fetch.labelIds msg = Some labels
       /\ Fetch.msg_id msg = i
       /\ Email.id e = i
       /\ Email.sender e = Fetch.header "from" (Fetch.headers msg)
       /\ Email.subject e = Some (Fetch.header "subject" (Fetch.headers msg))
       /\ tzinfo (Email.received e) = None
       /\ Email.is_read e = negb (bool_decide ("UNREAD" ∈ labels)).
Proof.
  intros Hrow.
  destruct (fetch_outcome max_results w)
    as (w' & n & Hrun & [(rows & _ & Ht & Hrows & _) | (_ & Ht & _)]);
    rewrite Hrun in Hrow; cbn [fst] in Hrow; rewrite Ht in Hrow; [|auto].
  apply write_lookup in Hrow as [Hold | (row & Hin & Hid & ->)]; [auto|].
  right. rewrite Forall_forall in Hrows.
  destruct (Hrows row Hin) as (id & msg & Hheld & Hrow).
  unfold Fetch.row_of in Hrow.
  destruct (Fetch.message_body b64decode msg) as [body|]; [|discriminate].
  destruct (Fetch.labelIds msg) as [labels|] eqn:Hlabels; [|discriminate].
  injection Hrow as <-. cbn in Hid. exists id, msg, labels. cbn. repeat split; auto.
Qed.

(** [email_of] on a message that has a row: the row, and the log aside
    the world as it was. *)
Lemma email_of_some msg row w :
  Fetch.row_of b64decode parsedate now msg = Some row ->
  exists lg,
    Fetch.email_of b64decode parsedate now msg w
    = (Fetch.mk_world (Fetch.service w) (Fetch.session_factory w) (Fetch.table w)
         (Fetch.pending w) (Fetch.db_faults w) (Fetch.closed w) lg,
       Fetch.Val row).
Proof.
  destruct w as [sv sf t p fs c lg].
  unfold Fetch.email_of, Fetch.row_of, Fetch.parse_email_date, mbind, Fetch.F_bind,
    Fetch.lift.
  destruct (Fetch.message_body b64decode msg) as [body|e]; [|discriminate].
  destruct (Fetch.labelIds msg) as [labels|]; [|discriminate].
  intros [= <-].
  destruct (parsedate (Fetch.header "date" (Fetch.headers msg))) as [d|]; cbn;
    eexists; reflexivity.
Qed.

Lemma merged_cons row rows fs :
  Fetch.merged (row :: rows) fs
  = (Fetch.merged [row] fs ++ Fetch.merged rows (tail fs))%list.
Proof. destruct fs as [|[] fs]; reflexivity. Qed.

(** [store] under the schedule of the session. *)
Lemma store_merged msg row k w :
  exists lg,
    Fetch.store msg row k w
    = (Fetch.mk_world (Fetch.service w) (Fetch.session_factory w) (Fetch.table w)
         (Fetch.pending w ++ Fetch.merged [row] (Fetch.db_faults w))
         (tail (Fetch.db_faults w)) (Fetch.closed w) lg,
       Fetch.Val (k + length (Fetch.merged [row] (Fetch.db_faults w)))%nat).
Proof.
  unfold Fetch.store, Fetch.try_except, Fetch.merge, mbind, Fetch.F_bind.
  set (tenth := (S k mod 10 =? 0)%nat).
  destruct (Fetch.db_faults w) as [|[] rest] eqn:Hm; destruct tenth; cbn;
    rewrite ?app_nil_r, ?Nat.add_0_r, ?Nat.add_1_r; eexists; reflexivity.
Qed.

(** The loop over the messages when every request is answered and
    every message has a row. *)
Lemma store_messages_all held ids rows :
  Forall2 (fun id row => exists msg,
             held !! id = Some msg
             /\ Fetch.row_of b64decode parsedate now msg = Some row) ids rows ->
  forall k w s,
  Fetch.service w = Some s -> Fetch.faults s = [] -> Fetch.mail s = held ->
  exists w',
    Fetch.store_messages b64decode parsedate now ids k w
    = (w', Fetch.Val (k + length (Fetch.merged rows (Fetch.db_faults w)))%nat)
    /\ Fetch.table w' = Fetch.table w
    /\ Fetch.pending w' = (Fetch.pending w ++ Fetch.merged rows (Fetch.db_faults w))%list
    /\ Fetch.db_faults w' = drop (length rows) (Fetch.db_faults w).
Proof.
  induction 1 as [|id row ids rows (msg & Hmsg & Hrow) Hrest IH];
    intros k w s Hs Hf Hheld.
  - cbn. eexists. split; [rewrite Nat.add_0_r; reflexivity|].
    rewrite app_nil_r, drop_0. repeat split.
  - cbn [Fetch.store_messages]. unfold mbind, Fetch.F_bind, Fetch.get_message.
    rewrite (request_answered _ _ msg w s Hs)
      by (unfold Fetch.failing; rewrite ?Hf, ?Hheld, ?Hmsg; reflexivity).
    set (s1 := Fetch.journalled [(Fetch.GetMessage id, Done)] s).
    destruct (email_of_some msg row (Fetch.with_server s1 w) Hrow) as (lg1 & ->).
    match goal with
    | |- context [Fetch.store msg row k ?v] =>
        destruct (store_merged msg row k v) as (lg2 & ->)
    end.
    cbn [Fetch.service Fetch.session_factory Fetch.table Fetch.pending Fetch.db_faults
         Fetch.closed Fetch.with_server].
    match goal with
    | |- context [Fetch.store_messages _ _ _ ids ?n ?v] =>
        destruct (IH n v s1 eq_refl) as (w' & -> & Ht & Hp & Hd)
    end.
    { subst s1. unfold Fetch.journalled. cbn. rewrite Hf. apply drop_nil. }
    { exact Hheld. }
    cbn [Fetch.table Fetch.pending Fetch.db_faults] in Ht, Hp, Hd.
    exists w'. cbn [Fetch.db_faults].
    rewrite (merged_cons row rows), length_app, Nat.add_assoc.
    split; [reflexivity|].
    repeat split; [exact Ht | rewrite Hp, <- app_assoc; reflexivity |].
    rewrite Hd. destruct (Fetch.db_faults w); cbn [tail]; rewrite ?drop_nil; reflexivity.
Qed.

(** X23.  A merge that raises costs its own row and no other.  When the
    service answers every request, every listed message has a row and
    the commit goes through, the rows written are those of the listed
    messages whose merge did not raise, in the order of the listing,
    and the count returned is their number. *)
Theorem failed_merges_are_skipped max_results w s rows :
  Fetch.service w = Some s -> Fetch.session_factory w = true ->
  Fetch.faults s = [] ->
  Forall2 (fun id row => exists msg,
             Fetch.mail s !! id = Some msg
             /\ Fetch.row_of b64decode parsedate now msg = Some row)
          (Fetch.listed max_results s) rows ->
  Fetch.db_faults w !! length rows <> Some true ->
  let run := Fetch.fetch_and_store_emails b64decode parsedate now max_results w in
  snd run = length (Fetch.merged rows (Fetch.db_faults w))
  /\ Fetch.table (fst run)
     = Fetch.write (Fetch.merged rows (Fetch.db_faults w)) (Fetch.table w)
  /\ last (Fetch.log (fst run))
     = Some (Fetch.Stored (length (Fetch.merged rows (Fetch.db_faults w)))).
Proof.
  intros Hs Hsf Hf Hrows Hcommit.
  assert (exists w',
            Fetch.fetch_and_store_emails b64decode parsedate now max_results w
            = (w', length (Fetch.merged rows (Fetch.db_faults w)))
            /\ Fetch.table w'
               = Fetch.write (Fetch.merged rows (Fetch.db_faults w)) (Fetch.table w)
            /\ last (Fetch.log w')
               = Some (Fetch.Stored (length (Fetch.merged rows (Fetch.db_faults w)))))
    as (w' & -> & Ht & Hl); [|cbn [fst snd]; auto].
  unfold Fetch.fetch_and_store_emails. rewrite Hsf, bool_decide_true by (rewrite Hs; eauto).
  cbn [negb orb]. unfold mbind, Fetch.F_bind. cbn [Fetch.open_session].
  assert (exists w2, (match max_results with
                      | Some n => Fetch.logger (Fetch.FetchingUpTo n)
                      | None => Fetch.logger Fetch.FetchingAll
                      end)
                       (Fetch.mk_world (Fetch.service w) (Fetch.session_factory w)
                          (Fetch.table w) [] (Fetch.db_faults w) false (Fetch.log w))
                     = (w2, Fetch.Val tt)
                     /\ Fetch.service w2 = Some s
                     /\ Fetch.table w2 = Fetch.table w /\ Fetch.pending w2 = []
                     /\ Fetch.db_faults w2 = Fetch.db_faults w)
    as (w2 & -> & Hs2 & Ht2 & Hp2 & Hd2)
    by (destruct max_results; eexists; repeat split; exact Hs).
  rewrite (list_messages_reads max_results w2 s Hs2)
    by (unfold Fetch.answers; rewrite Hf, take_nil; constructor).
  unfold Fetch.logger at 1.
  match goal with
  | |- context [Fetch.store_messages _ _ _ _ 0 ?v] =>
      destruct (store_messages_all _ _ _ Hrows 0 v
                  (Fetch.journalled (Fetch.listing max_results s) s))
        as (w5 & -> & Ht5 & Hp5 & Hd5)
  end.
  { reflexivity. }
  { unfold Fetch.journalled. cbn. rewrite Hf. apply drop_nil. }
  { reflexivity. }
  cbn [Fetch.table Fetch.pending Fetch.db_faults Fetch.with_server] in Ht5, Hp5, Hd5 |- *.
  rewrite Hd2 in *. rewrite Hp2 in Hp5. rewrite Ht2 in Ht5. cbn [app] in Hp5.
  unfold Fetch.commit. rewrite Hd5.
  destruct (drop (length rows) (Fetch.db_faults w)) as [|[] rest] eqn:Hdrop.
  2:{ exfalso. apply Hcommit. rewrite <- (Nat.add_0_r (length rows)), <- lookup_drop, Hdrop.
      reflexivity. }
  all: eexists; (split; [rewrite Nat.add_0_l; reflexivity|]); cbn -[last];
    rewrite last_snoc, Hp5, Ht5; split; reflexivity.
Qed.

End FetchFacts.

(** * Properties of the authentication *)

Lemma usable_some c : Auth.usable (Some c) <-> Auth.valid c = true.
Proof.
  unfold Auth.usable. split; [intros (c0 & [= <-] & H); exact H | eauto].
Qed.

Lemma usable_none : Auth.usable None <-> False.
Proof. unfold Auth.usable. split; [intros (c0 & [=] & _) | tauto]. Qed.

Lemma refreshable_some c :
  Auth.refreshable (Some c) <-> Auth.expired c && Auth.truthy (Auth.refresh_token c) = true.
Proof.
  unfold Auth.refreshable. rewrite andb_true_iff.
  split; [intros (c0 & [= <-] & H); exact H | eauto].
Qed.

Lemma refreshable_none : Auth.refreshable None <-> False.
Proof. unfold Auth.refreshable. split; [intros (c0 & [=] & _) | tauto]. Qed.

Section AuthFacts.

Variable service : Type.
Variable refresh : Auth.credentials -> option Auth.credentials.
Variable run_local_server : option Auth.credentials.
Variable build : Auth.credentials -> option service.

(** X24.  A service is returned only with its credentials on file: when
    [get_gmail_service] returns a service, the token file holds the
    credentials the service was built from, the build was the last
    call, and a token file that was valid is the one it was. *)
Theorem service_comes_with_saved_token w w' svc :
  Auth.get_gmail_service service refresh run_local_server build w = (w', Some svc) ->
  exists creds,
    Auth.token_pickle w' = Some creds
    /\ build creds = Some svc
    /\ last (Auth.calls w') = Some (Auth.Build creds)
    /\ last (Auth.log w') = Some Auth.ServiceCreated
    /\ (Auth.usable (Auth.token_pickle w) -> Auth.token_pickle w' = Auth.token_pickle w).
Proof.
  unfold Auth.get_gmail_service, Auth.renew, Auth.build_service, Auth.usable.
  destruct w as [[c|] cs lg]; cbn [Auth.token_pickle].
  all: repeat match goal with
       | |- context [negb (Auth.valid ?c)] => destruct (Auth.valid c) eqn:?; cbn [negb]
       | |- context [if ?b && ?d then _ else _] => destruct (b && d)
       | |- context [refresh ?c] => destruct (refresh c) eqn:?
       | |- context [match run_local_server with _ => _ end] =>
           destruct run_local_server eqn:?
       | |- context [build ?x] => destruct (build x) eqn:?
       end.
  all: try discriminate.
  all: intros [= <- <-]; eexists; cbn -[last]; rewrite !last_snoc.
  all: repeat split; try eassumption.
  all: intros (? & [= <-] & ?); congruence.
Qed.

(** X25.  The user is asked to log in exactly when the token file holds
    no valid credentials and none that can be refreshed; a refresh is
    tried exactly when it holds credentials that are not valid and can
    be refreshed; and valid credentials are used as they are, with no
    call but the build. *)
Theorem login_only_without_refreshable_token w :
  let w' := fst (Auth.get_gmail_service service refresh run_local_server build w) in
  exists new,
    Auth.calls w' = (Auth.calls w ++ new)%list
    /\ (Auth.RunLocalServer ∈ new
        <-> ~ Auth.usable (Auth.token_pickle w)
            /\ ~ Auth.refreshable (Auth.token_pickle w))
    /\ ((exists c, Auth.Refresh c ∈ new)
        <-> ~ Auth.usable (Auth.token_pickle w)
            /\ Auth.refreshable (Auth.token_pickle w))
    /\ (Auth.usable (Auth.token_pickle w) ->
        exists c, Auth.token_pickle w = Some c /\ new = [Auth.Build c]).
Proof.
  intros w'. subst w'.
  unfold Auth.get_gmail_service, Auth.renew, Auth.build_service.
  destruct w as [[c|] cs lg]; cbn [Auth.token_pickle].
  all: repeat match goal with
       | |- context [negb (Auth.valid ?c)] => destruct (Auth.valid c) eqn:?; cbn [negb]
       | |- context [if ?b && ?d then _ else _] => destruct (b && d) eqn:?
       | |- context [refresh ?c] => destruct (refresh c) eqn:?
       | |- context [match run_local_server with _ => _ end] =>
           destruct run_local_server eqn:?
       | |- context [build ?x] => destruct (build x) eqn:?
       end.
  all: cbn [fst Auth.calls Auth.logger Auth.called Auth.dump].
  all: rewrite <- ?app_assoc; cbn [app]; eexists; (split; [reflexivity|]).
  all: rewrite ?usable_some, ?usable_none, ?refreshable_some, ?refreshable_none.
  all: repeat match goal with
       | H : ?x = _ |- context [?x] => rewrite H
       end.
  all: split; [|split].
  all: try solve [ rewrite ?elem_of_cons, elem_of_nil;
                   intuition (discriminate || congruence) ].
  all: try solve [ intros H; try discriminate H; eexists; split; reflexivity
                 | intros H; destruct H ].
  all: split.
  all: try solve [ intros (? & Hin); rewrite ?elem_of_cons, elem_of_nil in Hin;
                   intuition (discriminate || congruence) ].
  all: try solve [ intros (H1 & H2); exfalso; apply H1; reflexivity
                 | intros (H1 & H2); discriminate H2
                 | intros (H1 & H2); destruct H2 ].
  all: intros _; eexists; left; reflexivity.
Qed.

End AuthFacts.

(** * Witnesses of the further properties *)

(** Witness: Equals on the subject of the sample message, the value in
    capitals and in small letters. *)
Lemma verdict_ignores_case_of_value_witness :
  ("Subject" ∈ text_fields)
  /\ PyStr.lower "TEST SUBJECT" = PyStr.lower "test subject"
  /\ _evaluate_condition iso_parse test_email
       (mk_condition "Subject" "Equals" (PStr "TEST SUBJECT"))
     = _evaluate_condition iso_parse test_email
         (mk_condition "Subject" "Equals" (PStr "test subject")).
Proof.
  split; [compute_done|]. split; [reflexivity|].
  apply (verdict_ignores_case_of_value iso_parse test_email "Subject" "Equals"
           "TEST SUBJECT" "test subject"); [compute_done | reflexivity].
Defined.

(** Witness: the sender of the sample message. *)
Lemma equals_negates_not_equals_witness :
  ("From" ∈ recognized_fields)
  /\ (_evaluate_condition iso_parse test_email
        (mk_condition "From" "Equals" (PStr "Test@Example.com")) = Ok true
      <-> _evaluate_condition iso_parse test_email
            (mk_condition "From" "Does not Equal" (PStr "Test@Example.com"))
          = Ok false).
Proof.
  split; [compute_done|].
  apply (equals_negates_not_equals iso_parse test_email "From"
           (PStr "Test@Example.com") true).
  compute_done.
Defined.

(** Witness: the sample message has no recipient. *)
Lemma null_column_reads_none_witness :
  ("To" ∈ text_fields) /\ text_column test_email "To" = PNone
  /\ _evaluate_condition iso_parse test_email (mk_condition "To" "Contains" (PStr "on"))
     = Ok (PyStr.contains (PyStr.lower (Py.str (PStr "on"))) "none")
  /\ _evaluate_condition iso_parse test_email (mk_condition "To" "Equals" (PStr "on"))
     = Ok false.
Proof.
  split; [compute_done|]. split; [reflexivity|].
  apply (null_column_reads_none iso_parse test_email "To" (PStr "on"));
    [compute_done | reflexivity].
Defined.

(** Witness: a predicate the evaluator does not know. *)
Lemma unknown_predicate_false_witness :
  ("Starts With" ∉ predicates)
  /\ _evaluate_condition iso_parse test_email
       (mk_condition "Subject" "Starts With" (PStr "Test")) = Ok false.
Proof.
  split; [compute_done|].
  apply (unknown_predicate_false iso_parse test_email "Subject" "Starts With"
           (PStr "Test")); compute_done.
Defined.

(** Witness: a combinator the matcher does not know, over a condition
    that holds. *)
Lemma unknown_combinator_never_matches_witness :
  "None" <> "All" /\ "None" <> "Any"
  /\ _evaluate_rule_conditions iso_parse test_email
       (mk_rule_conditions "None" [mk_condition "Subject" "Contains" (PStr "Test")])
     <> Ok true.
Proof.
  split; [discriminate|]. split; [discriminate|].
  apply (unknown_combinator_never_matches iso_parse test_email "None"
           [mk_condition "Subject" "Contains" (PStr "Test")]); discriminate.
Defined.

(** Witness: the request of mark_as_read on the invoice fails. *)
Lemma failed_mark_changes_nothing_witness :
  fails_at 0 (account [true]) = true
  /\ table (fst (_apply_action "m1" (mk_action "mark_as_read" None) (world0 [true])))
     = table (world0 [true]).
Proof.
  split; [reflexivity|].
  apply (failed_mark_changes_nothing "m1" (mk_action "mark_as_read" None)
           (world0 [true]) (account [true])); [left|..]; reflexivity.
Defined.

(** Witness: a message the table does not hold. *)
Lemma mark_without_row_witness :
  table (world0 []) !! "m9" = None
  /\ table (fst (_apply_action "m9" (mk_action "mark_as_read" None) (world0 [])))
     = table (world0 []).
Proof.
  split; [reflexivity|].
  apply (mark_without_row "m9" (mk_action "mark_as_read" None) (world0 [])
           (account [])); [left|..]; reflexivity.
Defined.

(** Witness: a move without ['params']. *)
Lemma move_without_label_witness :
  param (mk_action "move_message" None) "label" = Raise (KeyError "params")
  /\ gmail_service (fst (_apply_action "m1" (mk_action "move_message" None) (world0 [])))
     = Some (account []).
Proof.
  split; [reflexivity|].
  apply (move_without_label "m1" (mk_action "move_message" None) (KeyError "params")
           (world0 []) (account [])); reflexivity.
Defined.

(** Witness: the listing of the labels fails. *)
Lemma move_failure_attaches_nothing_witness :
  fails_at 0 (account [true]) = true
  /\ issued (world0 [true])
       (fst (_apply_action "m1" (move_to "Receipts") (world0 [true])))
     = [(LabelsList, Failed)].
Proof.
  split; [reflexivity|].
  apply (move_failure_attaches_nothing "m1" (move_to "Receipts") "Receipts"
           (world0 [true]) (account [true]) eq_refl (param_move_to "Receipts") eq_refl).
  reflexivity.
Defined.

(** Witness: the sample account has no label Receipts. *)
Lemma move_twice_creates_once_witness :
  exists new_label first second,
    issued (world0 [])
      (fst (for_actions "m1" [move_to "Receipts"; move_to "Receipts"] (world0 [])))
    = [(LabelsList, Done); (LabelsCreate "Receipts", Done);
       (MessagesModify "m1" [l_id new_label] [], first);
       (LabelsList, Done);
       (MessagesModify "m1" [l_id new_label] [], second)].
Proof.
  apply (move_twice_creates_once "m1" (move_to "Receipts") "Receipts" (world0 [])
           (account []) eq_refl (param_move_to "Receipts") eq_refl);
    [repeat constructor; compute_done | reflexivity | reflexivity | reflexivity].
Defined.

(** Witness: archiving the invoice twice. *)
Lemma simple_action_idempotent_witness :
  ("archive_message" ∈ simple_action_types)
  /\ table (fst (_apply_action "m1" (mk_action "archive_message" None)
                   (fst (_apply_action "m1" (mk_action "archive_message" None)
                           (world0 [])))))
     = table (fst (_apply_action "m1" (mk_action "archive_message" None) (world0 []))).
Proof.
  split; [compute_done|].
  apply (simple_action_idempotent "m1" (mk_action "archive_message" None) (world0 [])
           (account [])); [compute_done | reflexivity | reflexivity | reflexivity].
Defined.

(** Witness: the request that stars the newsletter in a pass of one
    rule. *)
Lemma pass_requests_name_matched_messages_witness :
  ((MessagesModify "m2" ["STARRED"] [], Done)
   ∈ issued (world0 []) (fst (process_emails iso_parse [star_all] None (world0 []))))
  /\ exists email rule,
       email ∈ query_all None (table (world0 [])) /\ Email.id email = "m2"
       /\ rule ∈ [star_all] /\ matches iso_parse email rule = true.
Proof.
  assert ((MessagesModify "m2" ["STARRED"] [], Done)
          ∈ issued (world0 [])
              (fst (process_emails iso_parse [star_all] None (world0 [])))) as Hin.
  { assert (issued (world0 [])
              (fst (process_emails iso_parse [star_all] None (world0 [])))
            = [(MessagesModify "m2" ["STARRED"] [], Done);
               (MessagesModify "m1" ["STARRED"] [], Done)]) as ->
      by (vm_compute; reflexivity).
    left. }
  split; [exact Hin|].
  exact (pass_requests_name_matched_messages iso_parse [star_all] None (world0 [])
           (MessagesModify "m2" ["STARRED"] []) Done "m2" Hin eq_refl).
Defined.

(** Witness: the sample inbox and no service. *)
Lemma pass_without_service_witness :
  table (fst (process_emails iso_parse [star_all; archive_all] None
                (mk_world None inbox false [])))
  = inbox.
Proof.
  apply (pass_without_service iso_parse [star_all; archive_all] None
           (mk_world None inbox false []) eq_refl).
Defined.

(** Witness: the sample inbox is served in two pages; without a limit
    both are read, with a limit the first alone. *)
Lemma list_messages_reads_witness :
  snd (Fetch.list_messages None sample_fetch_world) = Fetch.Val ["a"; "b"; "c"]
  /\ snd (Fetch.list_messages (Some 2%nat) sample_fetch_world) = Fetch.Val ["a"; "b"].
Proof.
  split.
  - rewrite (list_messages_reads None sample_fetch_world sample_server eq_refl);
      [reflexivity | constructor].
  - rewrite (list_messages_reads (Some 2%nat) sample_fetch_world sample_server eq_refl);
      [reflexivity | constructor].
Defined.

(** Witness: the row of the first sample message after an ingestion. *)
Lemma ingested_rows_mirror_messages_witness :
  exists e,
    Fetch.table (fst (Fetch.fetch_and_store_emails plain_body no_date sample_now None
                        sample_fetch_world)) !! "a" = Some e
    /\ Email.sender e = "billing@acme.com" /\ Email.is_read e = false
    /\ (Fetch.table sample_fetch_world !! "a" = Some e
        \/ exists id msg labels,
             Fetch.mail_of sample_fetch_world !! id = Some msg
             /\ Fetch.labelIds msg = Some labels
             /\ Fetch.msg_id msg = "a"
             /\ Email.id e = "a"
             /\ Email.sender e = Fetch.header "from" (Fetch.headers msg)
             /\ Email.subject e = Some (Fetch.header "subject" (Fetch.headers msg))
             /\ tzinfo (Email.received e) = None
             /\ Email.is_read e = negb (bool_decide ("UNREAD" ∈ labels))).
Proof.
  eexists. split; [vm_compute; reflexivity|]. split; [reflexivity|].
  split; [reflexivity|].
  apply (ingested_rows_mirror_messages plain_body no_date sample_now None
           sample_fetch_world "a").
  vm_compute. reflexivity.
Defined.

(** Witness: three messages listed, the merge of the second raises. *)
Lemma failed_merges_are_skipped_witness :
  snd (Fetch.fetch_and_store_emails plain_body no_date sample_now None
         faulty_session_world) = 2%nat
  /\ Fetch.table (fst (Fetch.fetch_and_store_emails plain_body no_date sample_now None
                         faulty_session_world))
     = Fetch.write (Fetch.merged sample_rows [false; true]) ∅
  /\ last (Fetch.log (fst (Fetch.fetch_and_store_emails plain_body no_date sample_now
                             None faulty_session_world)))
     = Some (Fetch.Stored 2).
Proof.
  apply (failed_merges_are_skipped plain_body no_date sample_now None
           faulty_session_world sample_server sample_rows eq_refl eq_refl eq_refl).
  - repeat constructor; eexists; split; vm_compute; reflexivity.
  - discriminate.
Defined.

(** Witness: stale credentials on file, refreshed and saved. *)
Lemma service_comes_with_saved_token_witness :
  exists creds,
    Auth.token_pickle (Auth.mk_world (Some fresh_credentials)
                         [Auth.Refresh stale_credentials; Auth.Build fresh_credentials]
                         [Auth.ServiceCreated])
    = Some creds
    /\ sample_build creds = Some "ya29.new"
    /\ last [Auth.Refresh stale_credentials; Auth.Build fresh_credentials]
       = Some (Auth.Build creds)
    /\ last [Auth.ServiceCreated] = Some Auth.ServiceCreated
    /\ (Auth.usable (Auth.token_pickle stale_token_world) ->
        Some fresh_credentials = Auth.token_pickle stale_token_world).
Proof.
  apply (service_comes_with_saved_token string sample_refresh None sample_build
           stale_token_world
           (Auth.mk_world (Some fresh_credentials)
              [Auth.Refresh stale_credentials; Auth.Build fresh_credentials]
              [Auth.ServiceCreated])
           "ya29.new").
  reflexivity.
Defined.
